(** * cad3d: the primitive store, the solid builder and the transform session

    A shallow embedding of [src/renderer/App.jsx]: the React state of [App]
    (the ordered primitive list and the selection), the pure helpers
    ([parseNumber], [roundValue], [positionToWorld], [positionFromWorld],
    [clampDimension], [computeScaledDimensions]), the fold of
    [buildCombinedMesh] over an abstract boolean-geometry library, and the
    handlers of [EditablePrimitive], [PrimitiveInspector] and
    [DimensionIndicators] as transformers of an explicit state.

    Numbers.  A JavaScript number is modelled as an exact rational or one of
    the three non-finite doubles ([Infinity], [-Infinity], [NaN]).  A product
    overflows to an infinity where the double product does; the rounding of
    each operation to 53 bits and the sign of zero are not modelled.  The
    statements on [roundValue], on the resolver and on the handlers that
    round are therefore written so that they do not rest on exactness: they
    speak of the products and quotients the program computes, allow an
    infinite result where a product can overflow, and carry a bound on the
    magnitudes where a round trip needs one. *)

From Stdlib Require Import QArith Qround Qabs Qminmax ZArith List String Bool Lia Lqa.
From Stdlib Require Import DecimalString Permutation.
Import ListNotations.

Set Implicit Arguments.

(** ** JavaScript numbers *)

Module JsNum.

Inductive number : Type :=
| Fin (q : Q)
| PosInf
| NegInf
| NaN.

(** [Number.isFinite] *)
Definition isFinite (v : number) : bool :=
  match v with Fin _ => true | _ => false end.

Definition Qis_zero (q : Q) : bool := Qeq_bool q 0.
Definition Qis_neg (q : Q) : bool := negb (Qle_bool 0 q).

(** Sign of an infinite product or quotient: [neg = true] gives [-Infinity]. *)
Definition inf_of_sign (neg : bool) : number := if neg then NegInf else PosInf.

(** The magnitude from which a result rounds to an infinity: half an ulp
    above the largest double. *)
Definition overflowBound : Q := inject_Z (2 ^ 1024 - 2 ^ 970).

(** A finite result, or the infinity it overflows to. *)
Definition overflow (r : Q) : number :=
  if Qle_bool overflowBound r then PosInf
  else if Qle_bool r (- overflowBound) then NegInf
  else Fin r.

(** [a * b] *)
Definition mul (a b : number) : number :=
  match a, b with
  | NaN, _ | _, NaN => NaN
  | Fin p, Fin q => overflow (p * q)
  | Fin p, PosInf | PosInf, Fin p =>
      if Qis_zero p then NaN else inf_of_sign (Qis_neg p)
  | Fin p, NegInf | NegInf, Fin p =>
      if Qis_zero p then NaN else inf_of_sign (negb (Qis_neg p))
  | PosInf, PosInf | NegInf, NegInf => PosInf
  | PosInf, NegInf | NegInf, PosInf => NegInf
  end.

(** [a + b] *)
Definition add (a b : number) : number :=
  match a, b with
  | NaN, _ | _, NaN => NaN
  | Fin p, Fin q => Fin (p + q)
  | PosInf, NegInf | NegInf, PosInf => NaN
  | PosInf, _ | _, PosInf => PosInf
  | NegInf, _ | _, NegInf => NegInf
  end.

(** [a / b]; a zero divisor is read as [+0]. *)
Definition div (a b : number) : number :=
  match a, b with
  | NaN, _ | _, NaN => NaN
  | Fin p, Fin q =>
      if Qis_zero q
      then (if Qis_zero p then NaN else inf_of_sign (Qis_neg p))
      else Fin (p / q)
  | Fin _, PosInf | Fin _, NegInf => Fin 0
  | PosInf, Fin q => inf_of_sign (Qis_neg q)
  | NegInf, Fin q => inf_of_sign (negb (Qis_neg q))
  | _, _ => NaN
  end.

(** [Math.abs] *)
Definition abs (a : number) : number :=
  match a with
  | Fin p => Fin (Qabs p)
  | PosInf | NegInf => PosInf
  | NaN => NaN
  end.

(** [Math.max] of two arguments *)
Definition max (a b : number) : number :=
  match a, b with
  | NaN, _ | _, NaN => NaN
  | PosInf, _ | _, PosInf => PosInf
  | NegInf, v | v, NegInf => v
  | Fin p, Fin q => if Qle_bool p q then Fin q else Fin p
  end.

(** [Math.round]: the nearest integer, a tie going up. *)
Definition round (a : number) : number :=
  match a with
  | Fin p => Fin (inject_Z (Qfloor (p + (1 # 2))))
  | v => v
  end.

(** A value that is a finite number not below [lo]. *)
Definition finite_ge (lo : Q) (v : number) : Prop :=
  match v with Fin q => lo <= q | _ => False end.

End JsNum.
Import JsNum.

(** A property read or an argument that may be [undefined]. *)
Definition jsval : Type := option number.

(** [ToNumber]: [undefined] becomes [NaN]. *)
Definition toNumber (v : jsval) : number :=
  match v with Some n => n | None => NaN end.

(** Truthiness of a number or [undefined], as tested by [? :]. *)
Definition truthy (v : jsval) : bool :=
  match v with
  | Some (Fin q) => negb (Qis_zero q)
  | Some NaN => false
  | Some _ => true
  | None => false
  end.

(** ** Data model *)

Open Scope string_scope.
Open Scope list_scope.

(** [primitive.type]: the keys of [TYPE_PRESETS]. *)
Inductive ShapeType : Type := box | sphere | cylinder.

(** [primitive.operation]: the two values of the inspector's select. *)
Inductive Operation : Type := add | subtract.

(** [{ x, y, z }] *)
Record Vec3 : Type := mkVec3 { vx : number; vy : number; vz : number }.

(** [primitive.dimensions]: an object with some of the four keys. *)
Record Dimensions : Type := mkDims {
  width : jsval;
  height : jsval;
  depth : jsval;
  radius : jsval
}.

Record Primitive : Type := mkPrimitive {
  p_id : string;
  p_name : string;
  p_type : ShapeType;
  p_operation : Operation;
  p_position : Vec3;
  p_dimensions : Dimensions
}.

Definition ShapeType_eqb (a b : ShapeType) : bool :=
  match a, b with
  | box, box | sphere, sphere | cylinder, cylinder => true
  | _, _ => false
  end.

Definition Operation_eqb (a b : Operation) : bool :=
  match a, b with
  | add, add | subtract, subtract => true
  | _, _ => false
  end.

Definition num (q : Q) : jsval := Some (Fin q).

Definition boxDims (w h d : number) : Dimensions :=
  mkDims (Some w) (Some h) (Some d) None.
Definition sphereDims (r : number) : Dimensions :=
  mkDims None None None (Some r).
Definition cylinderDims (r h : number) : Dimensions :=
  mkDims None (Some h) None (Some r).

Definition DEFAULT_PRIMITIVES : list Primitive :=
  [ mkPrimitive "prim-1" "Base Plate" box add
      (mkVec3 (Fin 0) (Fin 0) (Fin (1 # 2)))
      (boxDims (Fin 6) (Fin 1) (Fin 6));
    mkPrimitive "prim-2" "Center Column" cylinder add
      (mkVec3 (Fin 0) (Fin 0) (Fin (5 # 2)))
      (cylinderDims (Fin (12 # 10)) (Fin 4));
    mkPrimitive "prim-3" "Corner Scoop" sphere subtract
      (mkVec3 (Fin (5 # 2)) (Fin (5 # 2)) (Fin (3 # 2)))
      (sphereDims (Fin (14 # 10))) ].

Record Preset : Type := mkPreset { label : string; preset_dimensions : Dimensions }.

Definition TYPE_PRESETS (t : ShapeType) : Preset :=
  match t with
  | box => mkPreset "Box" (boxDims (Fin 2) (Fin 2) (Fin 2))
  | sphere => mkPreset "Sphere" (sphereDims (Fin (15 # 10)))
  | cylinder => mkPreset "Cylinder" (cylinderDims (Fin (11 # 10)) (Fin 3))
  end.

(** ** Helpers *)

(** [randomId]: the argument is the base-36 slice drawn from [Math.random]. *)
Definition randomId (suffix : string) : string := ("prim-" ++ suffix)%string.

(** [parseNumber]: the first argument is the result of [Number.parseFloat]
    on the raw input; an [undefined] fallback is the default parameter 0. *)
Definition parseNumber (parsed : number) (fallback : jsval) : number :=
  if isFinite parsed then parsed
  else match fallback with
       | Some f => f
       | None => Fin 0
       end.

(** [10 ** precision] *)
Definition pow10 (precision : nat) : Q := inject_Z (10 ^ Z.of_nat precision).

Definition roundValueTo (value : number) (precision : nat) : number :=
  let multiplier := Fin (pow10 precision) in
  JsNum.div (JsNum.round (JsNum.mul value multiplier)) multiplier.

(** [roundValue] with its default precision. *)
Definition roundValue (value : number) : number := roundValueTo value 2.

Inductive HandleMode : Type := move | resize.

Definition positionToWorld (p : Vec3) : Vec3 :=
  mkVec3 (vx p) (vz p) (vy p).

Definition positionFromWorld (p : Vec3) : Vec3 :=
  mkVec3 (vx p) (vz p) (vy p).

(** ** The primitive store: the [useState] cells of [App] *)

Record Store : Type := mkStore {
  primitives : list Primitive;
  selectedId : option string
}.

(** [useState(DEFAULT_PRIMITIVES)], [useState(DEFAULT_PRIMITIVES[0]?.id ?? null)] *)
Definition initialStore : Store :=
  mkStore DEFAULT_PRIMITIVES (option_map p_id (nth_error DEFAULT_PRIMITIVES 0)).

Definition setPrimitives (f : list Primitive -> list Primitive) (st : Store) : Store :=
  mkStore (f (primitives st)) (selectedId st).

Definition setSelectedId (f : option string -> option string) (st : Store) : Store :=
  mkStore (primitives st) (f (selectedId st)).

(** [primitives.find((primitive) => primitive.id === selectedId) ?? null] *)
Definition selectedPrimitive (st : Store) : option Primitive :=
  match selectedId st with
  | Some sid => find (fun primitive => (p_id primitive =? sid)%string) (primitives st)
  | None => None
  end.

(** An object given to [patchPrimitive] instead of a function: any subset of
    the keys of a primitive. *)
Record PrimitivePatch : Type := mkPatch {
  u_id : option string;
  u_name : option string;
  u_type : option ShapeType;
  u_operation : option Operation;
  u_position : option Vec3;
  u_dimensions : option Dimensions
}.

Definition orElse {A : Type} (o : option A) (d : A) : A :=
  match o with Some a => a | None => d end.

(** [{ ...item, ...updater }] *)
Definition spreadPrimitive (item : Primitive) (u : PrimitivePatch) : Primitive :=
  mkPrimitive
    (orElse (u_id u) (p_id item))
    (orElse (u_name u) (p_name item))
    (orElse (u_type u) (p_type item))
    (orElse (u_operation u) (p_operation item))
    (orElse (u_position u) (p_position item))
    (orElse (u_dimensions u) (p_dimensions item)).

Inductive Updater : Type :=
| UpdaterFn (f : Primitive -> Primitive)
| UpdaterObj (u : PrimitivePatch).

(** [typeof updater === 'function' ? updater(item) : { ...item, ...updater }] *)
Definition applyUpdater (updater : Updater) (item : Primitive) : Primitive :=
  match updater with
  | UpdaterFn f => f item
  | UpdaterObj u => spreadPrimitive item u
  end.

Definition patchPrimitive (id : string) (updater : Updater) (st : Store) : Store :=
  setPrimitives
    (fun items =>
       map (fun item =>
              if negb (p_id item =? id)%string then item
              else applyUpdater updater item)
           items)
    st.

(** [Math.floor(Math.random() * 90 + 10)] printed in decimal; [rnd] is the
    draw of [Math.random]. *)
Definition randomSuffixNumber (rnd : Q) : string :=
  NilZero.string_of_int (Z.to_int (Qfloor (rnd * 90 + 10))).

(** [addPrimitive]; [suffix] and [rnd] are the two random draws. *)
Definition addPrimitive (suffix : string) (rnd : Q) (type : ShapeType) (st : Store) : Store :=
  let preset := TYPE_PRESETS type in
  let newPrimitive :=
    mkPrimitive
      (randomId suffix)
      (label preset ++ " " ++ randomSuffixNumber rnd)%string
      type
      (if ShapeType_eqb type sphere then subtract else add)
      (mkVec3 (Fin 0) (Fin 0)
         (if truthy (height (preset_dimensions preset))
          then JsNum.div (toNumber (height (preset_dimensions preset))) (Fin 2)
          else toNumber (radius (preset_dimensions preset))))
      (preset_dimensions preset) in
  setSelectedId (fun _ => Some (p_id newPrimitive))
    (setPrimitives (fun items => items ++ [newPrimitive]) st).

(** The payload of [onTransformPrimitive]. *)
Record TransformPayload : Type := mkPayload {
  payload_position : option Vec3;
  payload_dimensions : option Dimensions
}.

Definition handleTransformPrimitive (id : string) (payload : TransformPayload) (st : Store) : Store :=
  patchPrimitive id
    (UpdaterFn (fun current =>
       mkPrimitive (p_id current) (p_name current) (p_type current) (p_operation current)
         (orElse (payload_position payload) (p_position current))
         (orElse (payload_dimensions payload) (p_dimensions current))))
    st.

Definition optString_eqb (a b : option string) : bool :=
  match a, b with
  | Some s, Some t => (s =? t)%string
  | None, None => true
  | _, _ => false
  end.

(** [filtered[filtered.length - 1].id]; read only on a non-empty list. *)
Definition lastId (filtered : list Primitive) : option string :=
  option_map p_id (nth_error filtered (List.length filtered - 1)).

Definition removePrimitive (id : string) (st : Store) : Store :=
  let items := primitives st in
  let filtered := filter (fun item => negb (p_id item =? id)%string) items in
  let st' :=
    setSelectedId
      (fun current =>
         if (List.length filtered =? 0)%nat then None
         else if optString_eqb current (Some id)
                 || negb (existsb (fun item => optString_eqb (Some (p_id item)) current) filtered)
              then lastId filtered
              else current)
      st in
  mkStore filtered (selectedId st').

(** [Array.prototype.findIndex], [-1] when no element matches. *)
Fixpoint findIndexFrom {A : Type} (f : A -> bool) (l : list A) (i : Z) : Z :=
  match l with
  | [] => (-1)%Z
  | a :: l' => if f a then i else findIndexFrom f l' (i + 1)%Z
  end.

Definition findIndex {A : Type} (f : A -> bool) (l : list A) : Z := findIndexFrom f l 0%Z.

(** [const [moved] = nextItems.splice(index, 1)]: the removed element and
    the array left. *)
Definition spliceOut {A : Type} (index : nat) (l : list A) : option A * list A :=
  (nth_error l index, firstn index l ++ skipn (S index) l).

(** [nextItems.splice(targetIndex, 0, moved)] *)
Definition spliceIn {A : Type} (targetIndex : nat) (moved : A) (l : list A) : list A :=
  firstn targetIndex l ++ moved :: skipn targetIndex l.

Definition reorderPrimitive (id : string) (direction : Z) (st : Store) : Store :=
  setPrimitives
    (fun items =>
       let index := findIndex (fun primitive => (p_id primitive =? id)%string) items in
       if (index =? -1)%Z then items
       else
         let targetIndex := (index + direction)%Z in
         if (targetIndex <? 0)%Z || (targetIndex >=? Z.of_nat (List.length items))%Z then items
         else
           match spliceOut (Z.to_nat index) items with
           | (Some moved, nextItems) => spliceIn (Z.to_nat targetIndex) moved nextItems
           | (None, nextItems) => nextItems
           end)
    st.

(** ** Solid builder *)

(** The arguments of the three [THREE.*Geometry] constructors. *)
Inductive Geometry : Type :=
| BoxGeometry (w h d : jsval)
| SphereGeometry (r : jsval) (widthSegments heightSegments : nat)
| CylinderGeometry (radiusTop radiusBottom h : jsval) (radialSegments : nat).

(** [new THREE.Mesh(geometry)] with its position set. *)
Record Mesh : Type := mkMesh { geometry : Geometry; mesh_position : Vec3 }.

Definition primitiveToMesh (primitive : Primitive) : Mesh :=
  let dimensions := p_dimensions primitive in
  let geometry :=
    match p_type primitive with
    | box => BoxGeometry (width dimensions) (height dimensions) (depth dimensions)
    | sphere => SphereGeometry (radius dimensions) 48 32
    | cylinder => CylinderGeometry (radius dimensions) (radius dimensions) (height dimensions) 48
    end in
  mkMesh geometry (positionToWorld (p_position primitive)).

(** [new THREE.MeshStandardMaterial({ color, roughness, metalness })] *)
Record Material : Type := mkMaterial { color : string; roughness : Q; metalness : Q }.

(** The boolean-geometry library ([three-csg-ts]) as an interface. *)
Class BooleanGeometry : Type := {
  CSG : Type;
  Rendered : Type;
  fromMesh : Mesh -> CSG;
  union : CSG -> CSG -> CSG;
  csg_subtract : CSG -> CSG -> CSG;
  toMesh : CSG -> Material -> Rendered
}.

(** The mesh returned by [buildCombinedMesh] with its two shadow flags. *)
Record CombinedMesh {G : BooleanGeometry} : Type := mkCombined {
  rendered : Rendered;
  castShadow : bool;
  receiveShadow : bool
}.
Arguments mkCombined {G} rendered castShadow receiveShadow.

(** The body of the [for] loop of [buildCombinedMesh] at index [i]. *)
Definition combineStep {G : BooleanGeometry} (merged : CSG) (primitive : Primitive) : CSG :=
  let mesh := primitiveToMesh primitive in
  let next := fromMesh mesh in
  if Operation_eqb (p_operation primitive) subtract
  then csg_subtract merged next
  else union merged next.

(** [for (let i = ...; i < primitives.length; i += 1)], at most [fuel]
    iterations. *)
Fixpoint combineLoop {G : BooleanGeometry} (fuel : nat) (primitives : list Primitive)
  (i : nat) (merged : CSG) : CSG :=
  match fuel with
  | O => merged
  | S fuel' =>
      if (i <? List.length primitives)%nat
      then match nth_error primitives i with
           | Some primitive => combineLoop fuel' primitives (S i) (combineStep merged primitive)
           | None => merged
           end
      else merged
  end.

Definition solidMaterial : Material := mkMaterial "#ffb347" (55 # 100) (15 # 100).

Definition buildCombinedMesh {G : BooleanGeometry} (primitives : list Primitive)
  : option CombinedMesh :=
  if (List.length primitives =? 0)%nat then None
  else
    match nth_error primitives 0 with
    | None => None
    | Some first =>
        let merged := fromMesh (primitiveToMesh first) in
        let merged := combineLoop (List.length primitives) primitives 1 merged in
        Some (mkCombined (toMesh merged solidMaterial) true true)
    end.

(** The combination of the specification: union for add, set difference for
    subtract. *)
Definition combine_spec {G : BooleanGeometry} (acc : CSG) (p : Primitive) : CSG :=
  match p_operation p with
  | add => union acc (fromMesh (primitiveToMesh p))
  | subtract => csg_subtract acc (fromMesh (primitiveToMesh p))
  end.

(** The fold of the specification: the first primitive is the accumulator,
    each later one is combined into it in list order. *)
Definition foldPrimitives_spec {G : BooleanGeometry} (primitives : list Primitive)
  : option CSG :=
  match primitives with
  | [] => None
  | first :: rest =>
      Some (fold_left combine_spec rest (fromMesh (primitiveToMesh first)))
  end.

(** A boolean-geometry library that only records the operations applied. *)
Inductive CSGTerm : Type :=
| TLeaf (m : Mesh)
| TUnion (a b : CSGTerm)
| TSubtract (a b : CSGTerm).

#[export] Instance SymbolicGeometry : BooleanGeometry := {|
  CSG := CSGTerm;
  Rendered := CSGTerm * Material;
  fromMesh := TLeaf;
  union := TUnion;
  csg_subtract := TSubtract;
  toMesh := fun c m => (c, m)
|}.

(** ** Dimension-from-scale resolver *)

Definition clampDimensionWith (value fallback : number) : number :=
  JsNum.max fallback (if isFinite value then value else fallback).

(** [clampDimension] with its default fallback. *)
Definition clampDimension (value : number) : number :=
  clampDimensionWith value (Fin (1 # 10)).

Definition computeScaledDimensions (type : ShapeType) (baseDimensions : Dimensions)
  (scale : option Vec3) : option Dimensions :=
  match scale with
  | None => None
  | Some scale =>
      match type with
      | box =>
          Some (mkDims
            (Some (roundValue (clampDimension
               (JsNum.mul (toNumber (width baseDimensions)) (JsNum.abs (vx scale))))))
            (Some (roundValue (clampDimension
               (JsNum.mul (toNumber (height baseDimensions)) (JsNum.abs (vy scale))))))
            (Some (roundValue (clampDimension
               (JsNum.mul (toNumber (depth baseDimensions)) (JsNum.abs (vz scale))))))
            None)
      | sphere =>
          let uniformScale :=
            JsNum.div
              (JsNum.add (JsNum.add (JsNum.abs (vx scale)) (JsNum.abs (vy scale)))
                         (JsNum.abs (vz scale)))
              (Fin 3) in
          Some (mkDims None None None
            (Some (roundValue (clampDimension
               (JsNum.mul (toNumber (radius baseDimensions)) uniformScale)))))
      | cylinder =>
          let radialScale :=
            JsNum.div (JsNum.add (JsNum.abs (vx scale)) (JsNum.abs (vz scale))) (Fin 2) in
          Some (mkDims None
            (Some (roundValue (clampDimension
               (JsNum.mul (toNumber (height baseDimensions)) (JsNum.abs (vy scale))))))
            None
            (Some (roundValue (clampDimension
               (JsNum.mul (toNumber (radius baseDimensions)) radialScale)))))
      end
  end.

(** ** Inspector ([PrimitiveInspector]) *)

(** The keys of a dimensions object. *)
Inductive DimKey : Type := kWidth | kHeight | kDepth | kRadius.

Definition getDim (key : DimKey) (d : Dimensions) : jsval :=
  match key with
  | kWidth => width d
  | kHeight => height d
  | kDepth => depth d
  | kRadius => radius d
  end.

(** [{ ...dimensions, [dimensionKey]: value }] *)
Definition setDim (key : DimKey) (value : jsval) (d : Dimensions) : Dimensions :=
  match key with
  | kWidth => mkDims value (height d) (depth d) (radius d)
  | kHeight => mkDims (width d) value (depth d) (radius d)
  | kDepth => mkDims (width d) (height d) value (radius d)
  | kRadius => mkDims (width d) (height d) (depth d) value
  end.

Definition withDimensions (current : Primitive) (d : Dimensions) : Primitive :=
  mkPrimitive (p_id current) (p_name current) (p_type current) (p_operation current)
    (p_position current) d.

(** [handleDimensionsChange] of the inspector showing [primitive]. *)
Definition handleDimensionsChange (primitive : Primitive) (dimensionKey : DimKey)
  (value : jsval) (st : Store) : Store :=
  patchPrimitive (p_id primitive)
    (UpdaterFn (fun current =>
       withDimensions current (setDim dimensionKey value (p_dimensions current))))
    st.

(** The [onChange] of the dimension input [key] of the inspector showing
    [primitive]; [parsed] is [Number.parseFloat(event.target.value)].  The
    inspector of a shape has no input for the keys of the other shapes. *)
Definition onDimensionInput (primitive : Primitive) (key : DimKey) (parsed : number)
  (st : Store) : Store :=
  let dimensions := p_dimensions primitive in
  match p_type primitive, key with
  | box, kWidth | box, kHeight | box, kDepth =>
      handleDimensionsChange primitive key
        (Some (parseNumber parsed (getDim key dimensions))) st
  | sphere, kRadius | cylinder, kRadius | cylinder, kHeight =>
      handleDimensionsChange primitive key
        (Some (JsNum.max (Fin (1 # 10)) (parseNumber parsed (getDim key dimensions)))) st
  | _, _ => st
  end.

(** The [onChange] of the type select. *)
Definition onTypeSelect (primitive : Primitive) (nextType : ShapeType) (st : Store) : Store :=
  patchPrimitive (p_id primitive)
    (UpdaterFn (fun current =>
       mkPrimitive (p_id current) (p_name current) nextType (p_operation current)
         (p_position current) (preset_dimensions (TYPE_PRESETS nextType))))
    st.

(** ** Dimension arrows ([DimensionIndicators], [DimensionArrow]) *)

(** [clampSize]; [Number.parseFloat] of a number is that number. *)
Definition clampSizeWith (value : number) (min : number) : number :=
  roundValue (JsNum.max min (parseNumber value (Some (Fin 0)))).

Definition clampSize (value : number) : number := clampSizeWith value (Fin (1 # 10)).

(** [updateDimensions({ [key]: v })] through [onChange = onTransform]. *)
Definition updateDimensions (primitive : Primitive) (key : DimKey) (v : number)
  (st : Store) : Store :=
  handleTransformPrimitive (p_id primitive)
    (mkPayload None (Some (setDim key (Some v) (p_dimensions primitive))))
    st.

(** The [value] shown by the arrow for [key]: the rounded dimension, or the
    rounded diameter for a radius. *)
Definition arrowValue (primitive : Primitive) (key : DimKey) : number :=
  let dimensions := p_dimensions primitive in
  match key with
  | kRadius => roundValue (JsNum.mul (toNumber (radius dimensions)) (Fin 2))
  | _ => roundValue (toNumber (getDim key dimensions))
  end.

(** [commitValue] / [handleChange] of the arrow for [key] of [primitive];
    [parsed] is [Number.parseFloat] of the draft.  A shape has no arrow for
    the keys of the other shapes. *)
Definition onArrowCommit (primitive : Primitive) (key : DimKey) (parsed : number)
  (st : Store) : Store :=
  let value := parseNumber parsed (Some (arrowValue primitive key)) in
  match p_type primitive, key with
  | box, kWidth | box, kDepth | box, kHeight | cylinder, kHeight =>
      updateDimensions primitive key (clampSize value) st
  | sphere, kRadius | cylinder, kRadius =>
      updateDimensions primitive key
        (JsNum.div (clampSizeWith value (Fin (2 # 10))) (Fin 2)) st
  | _, _ => st
  end.

(** ** Transform session ([EditablePrimitive]) *)

(** The live transform of a proxy mesh ([meshRef.current]). *)
Record Proxy : Type := mkProxy { proxy_position : Vec3; proxy_scale : Vec3 }.

(** [sessionRef.current] *)
Record Session : Type := mkSession { startDimensions : Dimensions }.

(** The mode given to [TransformControls]. *)
Inductive GizmoMode : Type := scale | translate.

Definition gizmoMode (handleMode : HandleMode) : GizmoMode :=
  match handleMode with resize => scale | move => translate end.

(** A call [onTransform(id, payload)]. *)
Definition TransformCall : Type := (string * TransformPayload)%type.

(** [finalizeResize]: the calls of [onTransform] it makes and the proxy it
    leaves. *)
Definition finalizeResize (mode : GizmoMode) (primitive : Primitive)
  (mesh : option Proxy) (session : option Session)
  : list TransformCall * option Proxy :=
  match mode, mesh, session with
  | scale, Some m, Some s =>
      let nextDimensions :=
        computeScaledDimensions (p_type primitive) (startDimensions s) (Some (proxy_scale m)) in
      let calls :=
        match nextDimensions with
        | Some d => [(p_id primitive, mkPayload None (Some d))]
        | None => []
        end in
      (calls, Some (mkProxy (proxy_position m) (mkVec3 (Fin 1) (Fin 1) (Fin 1))))
  | _, _, _ => ([], mesh)
  end.

(** [finalizeTranslate]: the calls of [onTransform] it makes. *)
Definition finalizeTranslate (mode : GizmoMode) (primitive : Primitive)
  (mesh : option Proxy) : list TransformCall :=
  match mode, mesh with
  | translate, Some m =>
      let p := proxy_position m in
      let userPosition :=
        positionFromWorld (mkVec3 (roundValue (vx p)) (roundValue (vy p)) (roundValue (vz p))) in
      [(p_id primitive, mkPayload (Some userPosition) None)]
  | _, _ => []
  end.

(** The state the handlers of the viewport read and write: the store, the
    mode toggle, and the two refs of every [EditablePrimitive], by id. *)
Record Workspace : Type := mkWorkspace {
  store : Store;
  handleMode : HandleMode;
  sessionRef : string -> option Session;
  meshRef : string -> option Proxy
}.

Definition setRef {A : Type} (id : string) (v : option A) (r : string -> option A)
  : string -> option A :=
  fun k => if (k =? id)%string then v else r k.

(** The calls of [onTransform] made by one [onMouseUp] of the gizmo of
    [primitive], in order. *)
Definition mouseUpCalls (ws : Workspace) (primitive : Primitive) : list TransformCall :=
  let mode := gizmoMode (handleMode ws) in
  let id := p_id primitive in
  let '(calls1, mesh1) := finalizeResize mode primitive (meshRef ws id) (sessionRef ws id) in
  let calls2 := finalizeTranslate mode primitive mesh1 in
  calls1 ++ calls2.

Definition applyCalls (calls : list TransformCall) (st : Store) : Store :=
  fold_left (fun s c => handleTransformPrimitive (fst c) (snd c) s) calls st.

(** [onMouseDown] of the gizmo of the selected primitive. *)
Definition onMouseDown (ws : Workspace) : Workspace :=
  match selectedPrimitive (store ws) with
  | None => ws
  | Some primitive =>
      match gizmoMode (handleMode ws) with
      | scale =>
          mkWorkspace (store ws) (handleMode ws)
            (setRef (p_id primitive) (Some (mkSession (p_dimensions primitive))) (sessionRef ws))
            (meshRef ws)
      | translate => ws
      end
  end.

(** [onMouseUp] of the gizmo of the selected primitive. *)
Definition onMouseUp (ws : Workspace) : Workspace :=
  match selectedPrimitive (store ws) with
  | None => ws
  | Some primitive =>
      let mode := gizmoMode (handleMode ws) in
      let id := p_id primitive in
      let '(calls1, mesh1) := finalizeResize mode primitive (meshRef ws id) (sessionRef ws id) in
      let calls2 := finalizeTranslate mode primitive mesh1 in
      mkWorkspace (applyCalls (calls1 ++ calls2) (store ws)) (handleMode ws)
        (setRef id None (sessionRef ws))
        (setRef id mesh1 (meshRef ws))
  end.

(** The events of the viewport that bear on a transform session: a pointer
    down on a primitive ([onSelect]), a pointer that misses every primitive
    ([handleDeselect]), the mode toggle, and the three events of the gizmo.
    During a drag [TransformControls] writes the live transform of the mesh
    it is attached to; [GizmoDrag] carries the transform it leaves. *)
Inductive Event : Type :=
| PointerDownOn (id : string)
| PointerMissed
| SetHandleMode (m : HandleMode)
| GizmoMouseDown
| GizmoDrag (live : Proxy)
| GizmoMouseUp.

Definition isRelease (e : Event) : bool :=
  match e with GizmoMouseUp => true | _ => false end.

(** The proxy mesh mounted for the primitive of [id]: at the stored position,
    in engine space, with unit scale; none when the list has no such
    primitive. *)
Definition mountedProxy (st : Store) (id : string) : option Proxy :=
  option_map
    (fun primitive =>
       mkProxy (positionToWorld (p_position primitive)) (mkVec3 (Fin 1) (Fin 1) (Fin 1)))
    (find (fun primitive => (p_id primitive =? id)%string) (primitives st)).

Definition remount (st : Store) (o : option string) (r : string -> option Proxy)
  : string -> option Proxy :=
  match o with
  | Some id => setRef id (mountedProxy st id) r
  | None => r
  end.

(** [onSelect] and [handleDeselect].  [EditablePrimitive] returns the bare
    mesh when it is not selected and the gizmo around the mesh when it is,
    so when the selection changes the mesh of the primitive that stops being
    selected and the mesh of the one that becomes selected are mounted anew;
    the session ref, a [useRef] of the component, is kept. *)
Definition select (next : option string) (ws : Workspace) : Workspace :=
  let previous := selectedId (store ws) in
  mkWorkspace (setSelectedId (fun _ => next) (store ws)) (handleMode ws)
    (sessionRef ws)
    (if optString_eqb previous next then meshRef ws
     else remount (store ws) next (remount (store ws) previous (meshRef ws))).

Definition step (e : Event) (ws : Workspace) : Workspace :=
  match e with
  | PointerDownOn id => select (Some id) ws
  | PointerMissed => select None ws
  | SetHandleMode m =>
      mkWorkspace (store ws) m (sessionRef ws) (meshRef ws)
  | GizmoMouseDown => onMouseDown ws
  | GizmoDrag live =>
      match selectedPrimitive (store ws) with
      | Some primitive =>
          match meshRef ws (p_id primitive) with
          | Some _ =>
              mkWorkspace (store ws) (handleMode ws) (sessionRef ws)
                (setRef (p_id primitive) (Some live) (meshRef ws))
          | None => ws
          end
      | None => ws
      end
  | GizmoMouseUp => onMouseUp ws
  end.

Definition run (events : list Event) (ws : Workspace) : Workspace :=
  fold_left (fun w e => step e w) events ws.

(** ** Predicates used by the statements *)

(** A dimension field holding a finite number above zero. *)
Definition isPositive (v : jsval) : bool :=
  match v with
  | Some (Fin q) => negb (Qle_bool q 0)
  | _ => false
  end.

(** Every dimension field of the shape is a finite positive number. *)
Definition dimensionsValid (t : ShapeType) (d : Dimensions) : bool :=
  match t with
  | box => isPositive (width d) && isPositive (height d) && isPositive (depth d)
  | sphere => isPositive (radius d)
  | cylinder => isPositive (radius d) && isPositive (height d)
  end.

Definition primitiveValid (p : Primitive) : bool :=
  dimensionsValid (p_type p) (p_dimensions p).

Definition storeValid (st : Store) : bool := forallb primitiveValid (primitives st).

(** The ids of the store, in list order. *)
Definition ids (items : list Primitive) : list string := map p_id items.

(** [k] is the integer nearest to [p], the upper one at a tie. *)
Definition nearestInteger (p : Q) (k : Z) : Prop :=
  inject_Z k - (1 # 2) <= p /\ p < inject_Z k + (1 # 2).

(** [k] hundredths: the quotient of the integer [k] by 100, as the program
    computes it. *)
Definition hundredths (k : Z) : number := JsNum.div (Fin (inject_Z k)) (Fin 100).

(** [v] is [c] rounded to two decimal places, in the arithmetic of the
    program: when the product of [c] by 100 is finite, [v] is the integer
    nearest to that product, divided by 100; a product that is not finite is
    returned as it is. *)
Definition roundedBy (c v : number) : Prop :=
  match JsNum.mul c (Fin 100) with
  | Fin p => exists k : Z, nearestInteger p k /\ v = hundredths k
  | other => v = other
  end.



(** At least [lo] hundredths, or [Infinity]. *)
Definition hundredthsFrom (lo : Z) (v : number) : Prop :=
  v = PosInf \/ exists k : Z, (lo <= k)%Z /\ v = hundredths k.

(** A dimension field holding a finite number not below 1/10. *)
Definition fieldAtLeastFloor (f : jsval) : Prop :=
  match f with
  | Some n => finite_ge (1 # 10) n
  | None => False
  end.

(** A dimension field holding a number not below 1/10, finite or
    [Infinity]. *)
Definition fieldFromFloor (f : jsval) : Prop :=
  match f with
  | Some (Fin q) => 1 # 10 <= q
  | Some PosInf => True
  | _ => False
  end.

(** The fields the resolver returns for a shape: those of the shape, each a
    number not below 1/10, and no other. *)
Definition resolvedFromFloor (type : ShapeType) (n : Dimensions) : Prop :=
  match type with
  | box =>
      fieldFromFloor (width n) /\ fieldFromFloor (height n)
      /\ fieldFromFloor (depth n) /\ radius n = None
  | sphere =>
      fieldFromFloor (radius n)
      /\ width n = None /\ height n = None /\ depth n = None
  | cylinder =>
      fieldFromFloor (radius n) /\ fieldFromFloor (height n)
      /\ width n = None /\ depth n = None
  end.

(** A dimension field holding a number above zero, finite or [Infinity]. *)
Definition isPositiveOrInfinite (v : jsval) : bool :=
  match v with
  | Some (Fin q) => negb (Qle_bool q 0)
  | Some PosInf => true
  | _ => false
  end.

(** Every dimension field of the shape is a number above zero. *)
Definition dimensionsPositive (t : ShapeType) (d : Dimensions) : bool :=
  match t with
  | box =>
      isPositiveOrInfinite (width d) && isPositiveOrInfinite (height d)
      && isPositiveOrInfinite (depth d)
  | sphere => isPositiveOrInfinite (radius d)
  | cylinder => isPositiveOrInfinite (radius d) && isPositiveOrInfinite (height d)
  end.

Definition storePositive (st : Store) : bool :=
  forallb (fun p => dimensionsPositive (p_type p) (p_dimensions p)) (primitives st).

(** The order of the numbers with the two infinities; [NaN] is not
    compared. *)
Definition numLe (a b : number) : Prop :=
  match a, b with
  | Fin p, Fin q => p <= q
  | Fin _, PosInf => True
  | NegInf, Fin _ => True
  | NegInf, NegInf => True
  | NegInf, PosInf => True
  | PosInf, PosInf => True
  | _, _ => False
  end.

(** Componentwise [roundValue]. *)
Definition roundVec3 (p : Vec3) : Vec3 :=
  mkVec3 (roundValue (vx p)) (roundValue (vy p)) (roundValue (vz p)).

Definition withPosition (current : Primitive) (pos : Vec3) : Primitive :=
  mkPrimitive (p_id current) (p_name current) (p_type current) (p_operation current)
    pos (p_dimensions current).

(** ** More arithmetic *)

(** Unary [-a] *)
Definition num_opp (a : number) : number :=
  match a with
  | Fin p => Fin (- p)
  | PosInf => NegInf
  | NegInf => PosInf
  | NaN => NaN
  end.

(** [a - b] *)
Definition num_sub (a b : number) : number := JsNum.add a (num_opp b).

(** [Math.min] of two arguments *)
Definition num_min (a b : number) : number :=
  match a, b with
  | NaN, _ | _, NaN => NaN
  | NegInf, _ | _, NegInf => NegInf
  | PosInf, v | v, PosInf => v
  | Fin p, Fin q => if Qle_bool p q then Fin p else Fin q
  end.

(** [a < b]; false as soon as one side is [NaN]. *)
Definition num_ltb (a b : number) : bool :=
  match a, b with
  | NaN, _ | _, NaN => false
  | Fin p, Fin q => negb (Qle_bool q p)
  | PosInf, _ => false
  | _, PosInf => true
  | NegInf, Fin _ => true
  | _, NegInf => false
  end.

(** ** Keyboard nudges ([handleKeyDown]) *)

Definition KEY_STEP : number := Fin (1 # 4).

(** [event.key], as far as the handler tells keys apart. *)
Inductive Key : Type := ArrowUp | ArrowDown | ArrowLeft | ArrowRight | OtherKey.

(** What the handler reads of the event and of the document:
    [ev_focusInField] says that [document.activeElement] is an input, a
    textarea, a select or content-editable. *)
Record KeyEvent : Type := mkKeyEvent {
  ev_key : Key;
  ev_shiftKey : bool;
  ev_focusInField : bool
}.

Definition isArrowKey (k : Key) : bool :=
  match k with OtherKey => false | _ => true end.

Definition handleKeyDown (event : KeyEvent) (st : Store) : Store :=
  match selectedId st with
  | None => st
  | Some sid =>
      if (sid =? "")%string then st
      else if ev_focusInField event then st
      else if negb (isArrowKey (ev_key event)) then st
      else
        let step := if ev_shiftKey event then JsNum.mul KEY_STEP (Fin 2) else KEY_STEP in
        let dx := match ev_key event with
                  | ArrowLeft => num_opp step
                  | ArrowRight => step
                  | _ => Fin 0
                  end in
        let dy := Fin 0 in
        let dz := match ev_key event with
                  | ArrowUp => step
                  | ArrowDown => num_opp step
                  | _ => Fin 0
                  end in
        patchPrimitive sid
          (UpdaterFn (fun current =>
             withPosition current
               (mkVec3 (roundValue (JsNum.add (vx (p_position current)) dx))
                       (roundValue (JsNum.add (vy (p_position current)) dy))
                       (roundValue (JsNum.add (vz (p_position current)) dz)))))
          st
  end.

(** ** More of the inspector *)

(** The keys of a position object. *)
Inductive Axis : Type := ax | ay | az.

Definition getAxis (axis : Axis) (p : Vec3) : number :=
  match axis with ax => vx p | ay => vy p | az => vz p end.

(** [{ ...position, [axis]: value }] *)
Definition setAxis (axis : Axis) (value : number) (p : Vec3) : Vec3 :=
  match axis with
  | ax => mkVec3 value (vy p) (vz p)
  | ay => mkVec3 (vx p) value (vz p)
  | az => mkVec3 (vx p) (vy p) value
  end.

(** The [onChange] of the position input [axis]; [parsed] is
    [Number.parseFloat(event.target.value)]. *)
Definition onPositionInput (primitive : Primitive) (axis : Axis) (parsed : number)
  (st : Store) : Store :=
  patchPrimitive (p_id primitive)
    (UpdaterFn (fun current =>
       withPosition current
         (setAxis axis
            (parseNumber parsed (Some (getAxis axis (p_position current))))
            (p_position current))))
    st.

(** The [onChange] of the label input. *)
Definition onNameInput (primitive : Primitive) (value : string) (st : Store) : Store :=
  patchPrimitive (p_id primitive)
    (UpdaterFn (fun current =>
       mkPrimitive (p_id current) value (p_type current) (p_operation current)
         (p_position current) (p_dimensions current)))
    st.

(** The [onChange] of the operation select. *)
Definition onOperationSelect (primitive : Primitive) (op : Operation) (st : Store) : Store :=
  patchPrimitive (p_id primitive)
    (UpdaterFn (fun current =>
       mkPrimitive (p_id current) (p_name current) (p_type current) op
         (p_position current) (p_dimensions current)))
    st.

(** ** Distance labels ([DistanceFromOriginIndicators], [DistanceValueLabel]) *)

(** [updatePosition] through [onChange = onTransform]. *)
Definition updatePosition (primitive : Primitive) (axisKey : Axis) (nextValue : number)
  (st : Store) : Store :=
  handleTransformPrimitive (p_id primitive)
    (mkPayload (Some (setAxis axisKey (roundValue nextValue) (p_position primitive))) None)
    st.

(** The [value] shown by the label of [axis]. *)
Definition distanceValue (primitive : Primitive) (axis : Axis) : number :=
  roundValue (getAxis axis (p_position primitive)).

(** [handleChange] of the label of [axis]; [parsed] is [Number.parseFloat]
    of the typed text. *)
Definition onDistanceCommit (primitive : Primitive) (axis : Axis) (parsed : number)
  (st : Store) : Store :=
  updatePosition primitive axis
    (parseNumber parsed (Some (distanceValue primitive axis))) st.

(** ** Opacity ([CombinedSolid], [PrimitiveGhost], the slider) *)

(** The [onChange] of the ghost-opacity slider. *)
Definition onGhostOpacityInput (parsed : number) (ghostOpacity : number) : number :=
  parseNumber parsed (Some ghostOpacity).

(** [Math.min(1, Math.max(ghostOpacity + 0.25, 0.25))] *)
Definition solidOpacity (ghostOpacity : number) : number :=
  num_min (Fin 1) (JsNum.max (JsNum.add ghostOpacity (Fin (1 # 4))) (Fin (1 # 4))).

(** [mesh.material.transparent = solidOpacity < 0.99] *)
Definition solidTransparent (ghostOpacity : number) : bool :=
  num_ltb (solidOpacity ghostOpacity) (Fin (99 # 100)).

(** The material props of a [PrimitiveGhost]. *)
Record GhostMaterial : Type := mkGhostMaterial {
  ghost_color : string;
  ghost_opacity : number;
  ghost_wireframe : bool
}.

Definition ghostMaterial (primitive : Primitive) (isSelected : bool) (ghostOpacity : number)
  : GhostMaterial :=
  let isSubtract := Operation_eqb (p_operation primitive) subtract in
  mkGhostMaterial
    (if isSubtract then "#ff4d6d" else "#26d07c")
    (if isSelected then num_min (JsNum.add ghostOpacity (Fin (1 # 10))) (Fin 1) else Fin 0)
    (negb isSelected).

(** The geometry and position of a [PrimitiveGhost]. *)
Definition ghostMesh (primitive : Primitive) : Mesh :=
  let dimensions := p_dimensions primitive in
  let geometry :=
    match p_type primitive with
    | box => BoxGeometry (width dimensions) (height dimensions) (depth dimensions)
    | sphere => SphereGeometry (radius dimensions) 32 16
    | cylinder => CylinderGeometry (radius dimensions) (radius dimensions) (height dimensions) 32
    end in
  mkMesh geometry (positionToWorld (p_position primitive)).

(** ** The arrows of [DimensionIndicators] *)

Record Arrow : Type := mkArrow {
  arrow_start : Vec3;
  arrow_end : Vec3;
  arrow_value : number
}.

(** [dimensions.k / 2] *)
Definition half (v : jsval) : number := JsNum.div (toNumber v) (Fin 2).

(** The arrow pushed for [key], if the shape has one. *)
Definition dimensionArrow (primitive : Primitive) (key : DimKey) : option Arrow :=
  let dimensions := p_dimensions primitive in
  let worldPosition := positionToWorld (p_position primitive) in
  let wx := vx worldPosition in
  let wy := vy worldPosition in
  let wz := vz worldPosition in
  match p_type primitive, key with
  | box, kWidth =>
      let halfWidth := half (width dimensions) in
      let halfDepth := half (depth dimensions) in
      let halfHeight := half (height dimensions) in
      let topY := JsNum.add wy halfHeight in
      let widthOffsetZ := JsNum.add (JsNum.add wz halfDepth) (Fin (6 # 10)) in
      Some (mkArrow
              (mkVec3 (num_sub wx halfWidth) (JsNum.add topY (Fin (2 # 10))) widthOffsetZ)
              (mkVec3 (JsNum.add wx halfWidth) (JsNum.add topY (Fin (2 # 10))) widthOffsetZ)
              (roundValue (toNumber (width dimensions))))
  | box, kDepth =>
      let halfWidth := half (width dimensions) in
      let halfDepth := half (depth dimensions) in
      let halfHeight := half (height dimensions) in
      let topY := JsNum.add wy halfHeight in
      let depthOffsetX := JsNum.add (JsNum.add wx halfWidth) (Fin (6 # 10)) in
      Some (mkArrow
              (mkVec3 depthOffsetX (JsNum.add topY (Fin (2 # 10))) (num_sub wz halfDepth))
              (mkVec3 depthOffsetX (JsNum.add topY (Fin (2 # 10))) (JsNum.add wz halfDepth))
              (roundValue (toNumber (depth dimensions))))
  | box, kHeight =>
      let halfWidth := half (width dimensions) in
      let halfDepth := half (depth dimensions) in
      let halfHeight := half (height dimensions) in
      let topY := JsNum.add wy halfHeight in
      let bottomY := num_sub wy halfHeight in
      let heightOffsetX := num_sub (num_sub wx halfWidth) (Fin (6 # 10)) in
      let heightOffsetZ := num_sub (num_sub wz halfDepth) (Fin (4 # 10)) in
      Some (mkArrow
              (mkVec3 heightOffsetX bottomY heightOffsetZ)
              (mkVec3 heightOffsetX topY heightOffsetZ)
              (roundValue (toNumber (height dimensions))))
  | sphere, kRadius =>
      let radius := toNumber (radius dimensions) in
      let diameter := roundValue (JsNum.mul radius (Fin 2)) in
      let offsetX := JsNum.add (JsNum.add wx radius) (Fin (8 # 10)) in
      Some (mkArrow
              (mkVec3 offsetX (num_sub wy radius) wz)
              (mkVec3 offsetX (JsNum.add wy radius) wz)
              diameter)
  | cylinder, kHeight =>
      let halfHeight := half (height dimensions) in
      let radius := toNumber (radius dimensions) in
      let topY := JsNum.add wy halfHeight in
      let bottomY := num_sub wy halfHeight in
      Some (mkArrow
              (mkVec3 (JsNum.add (JsNum.add wx radius) (Fin (7 # 10))) bottomY wz)
              (mkVec3 (JsNum.add (JsNum.add wx radius) (Fin (7 # 10))) topY wz)
              (roundValue (toNumber (height dimensions))))
  | cylinder, kRadius =>
      let halfHeight := half (height dimensions) in
      let radius := toNumber (radius dimensions) in
      let diameter := roundValue (JsNum.mul radius (Fin 2)) in
      let topY := JsNum.add wy halfHeight in
      let diameterOffsetY := JsNum.add topY (Fin (3 # 10)) in
      Some (mkArrow
              (mkVec3 (num_sub wx radius) diameterOffsetY wz)
              (mkVec3 (JsNum.add wx radius) diameterOffsetY wz)
              diameter)
  | _, _ => None
  end.

(** ** Value equality *)

(** Two numbers that are the same value: equal rationals, or the same
    non-finite number ([NaN] is taken as the same value as [NaN]). *)
Definition sameNumber (a b : number) : Prop :=
  match a, b with
  | Fin p, Fin q => p == q
  | PosInf, PosInf | NegInf, NegInf | NaN, NaN => True
  | _, _ => False
  end.

Definition sameField (a b : jsval) : Prop :=
  match a, b with
  | Some m, Some n => sameNumber m n
  | None, None => True
  | _, _ => False
  end.

Definition sameDimensions (a b : Dimensions) : Prop :=
  sameField (width a) (width b) /\ sameField (height a) (height b)
  /\ sameField (depth a) (depth b) /\ sameField (radius a) (radius b).

Definition sameVec3 (a b : Vec3) : Prop :=
  sameNumber (vx a) (vx b) /\ sameNumber (vy a) (vy b) /\ sameNumber (vz a) (vz b).

(** A number of hundredths of magnitude at most [bound]. *)
Definition boundedHundredth (bound : Z) (v : number) : Prop :=
  exists k : Z, (Z.abs k <= bound)%Z /\ sameNumber v (hundredths k).

(** A dimension field that the resolver leaves as it is: a number of
    hundredths from 10 to 10^12. *)
Definition settledField (f : jsval) : Prop :=
  exists (k : Z) (v : number),
    (10 <= k <= 10 ^ 12)%Z /\ f = Some v /\ sameNumber v (hundredths k).

(** What [buildCombinedMesh] reads of a primitive. *)
Definition shapeOf (p : Primitive) : ShapeType * Operation * Vec3 * Dimensions :=
  (p_type p, p_operation p, p_position p, p_dimensions p).

(** The selection is none or names a primitive of the list. *)
Definition selectionListed (st : Store) : Prop :=
  match selectedId st with
  | None => True
  | Some sid => In sid (ids (primitives st))
  end.

(** The dimensions object of a shape of type [t] whose fields are all
    settled: exactly the keys of the type, each a number of hundredths from
    10 to 10^12. *)
Definition settledDimensions (t : ShapeType) (d : Dimensions) : Prop :=
  match t with
  | box =>
      settledField (width d) /\ settledField (height d) /\ settledField (depth d)
      /\ radius d = None
  | sphere =>
      settledField (radius d) /\ width d = None /\ height d = None /\ depth d = None
  | cylinder =>
      settledField (radius d) /\ settledField (height d)
      /\ width d = None /\ depth d = None
  end.

(** The magnitude up to which the monotonicity of the resolver is stated:
    the product of two such numbers is far from overflowing. *)
Definition scaleBound : Q := inject_Z (10 ^ 100).

(** A field that is absent or a finite number from zero to [scaleBound]. *)
Definition nonNegativeField (f : jsval) : Prop :=
  match f with
  | Some (Fin q) => 0 <= q <= scaleBound
  | Some _ => False
  | None => True
  end.

Definition nonNegativeDimensions (d : Dimensions) : Prop :=
  nonNegativeField (width d) /\ nonNegativeField (height d)
  /\ nonNegativeField (depth d) /\ nonNegativeField (radius d).

(** Both fields absent, or both finite with the first not above the second. *)
Definition fieldLe (a b : jsval) : Prop :=
  match a, b with
  | Some (Fin p), Some (Fin q) => p <= q
  | None, None => True
  | _, _ => False
  end.

Definition dimensionsLe (a b : Dimensions) : Prop :=
  fieldLe (width a) (width b) /\ fieldLe (height a) (height b)
  /\ fieldLe (depth a) (depth b) /\ fieldLe (radius a) (radius b).

(** A finite scale whose components are, in absolute value, not above
    those of another, themselves not above [scaleBound]. *)
Definition scaleLe (s t : Vec3) : Prop :=
  match vx s, vy s, vz s, vx t, vy t, vz t with
  | Fin a, Fin b, Fin c, Fin a', Fin b', Fin c' =>
      Qabs a <= Qabs a' /\ Qabs b <= Qabs b' /\ Qabs c <= Qabs c'
      /\ Qabs a' <= scaleBound /\ Qabs b' <= scaleBound /\ Qabs c' <= scaleBound
  | _, _, _, _, _, _ => False
  end.

(** Two primitives that differ at most in the representation of their
    position's coordinates. *)
Definition samePlace (p q : Primitive) : Prop :=
  p_id p = p_id q /\ p_name p = p_name q /\ p_type p = p_type q
  /\ p_operation p = p_operation q /\ p_dimensions p = p_dimensions q
  /\ sameVec3 (p_position p) (p_position q).

(** A position whose coordinates are numbers of hundredths of magnitude at
    most 10^10. *)
Definition hundredthPosition (p : Vec3) : Prop :=
  boundedHundredth (10 ^ 10) (vx p) /\ boundedHundredth (10 ^ 10) (vy p)
  /\ boundedHundredth (10 ^ 10) (vz p).

(** Everything of a primitive but its position. *)
Definition unmoved (p : Primitive) : string * string * ShapeType * Operation * Dimensions :=
  (p_id p, p_name p, p_type p, p_operation p, p_dimensions p).

(** The engine axis along which the arrow of a key of a shape is drawn, if
    the shape has that arrow. *)
Definition arrowAxis (type : ShapeType) (key : DimKey) : option Axis :=
  match type, key with
  | box, kWidth => Some ax
  | box, kDepth => Some az
  | box, kHeight => Some ay
  | sphere, kRadius => Some ay
  | cylinder, kHeight => Some ay
  | cylinder, kRadius => Some ax
  | _, _ => None
  end.

(** The opposite arrow key. *)
Definition oppositeKey (k : Key) : Key :=
  match k with
  | ArrowUp => ArrowDown
  | ArrowDown => ArrowUp
  | ArrowLeft => ArrowRight
  | ArrowRight => ArrowLeft
  | OtherKey => OtherKey
  end.

(** A press, then a release, of the gizmo with one drag in between. *)
Definition fullSession (live : Proxy) : list Event :=
  [GizmoMouseDown; GizmoDrag live; GizmoMouseUp].

(** The extent of a shape along the up axis: the height of a box or of a
    cylinder, the diameter of a sphere. *)
Definition verticalExtent (p : Primitive) : number :=
  match p_type p with
  | box | cylinder => toNumber (height (p_dimensions p))
  | sphere => JsNum.mul (toNumber (radius (p_dimensions p))) (Fin 2)
  end.

(** What [buildCombinedMesh] returns for the accumulator [acc]. *)
Definition finishMesh {G : BooleanGeometry} (acc : CSG) : CombinedMesh :=
  mkCombined (toMesh acc solidMaterial) true true.

(** ** Sample states *)

(** A unit box at the origin with the given id. *)
Definition unitBox (id : string) : Primitive :=
  mkPrimitive id id box add (mkVec3 (Fin 0) (Fin 0) (Fin 0))
    (boxDims (Fin 1) (Fin 1) (Fin 1)).

(** The store [X, Y, Z] with [Y] selected (spec section 8). *)
Definition storeXYZ : Store :=
  mkStore [unitBox "X"; unitBox "Y"; unitBox "Z"] (Some "Y").

(** The first default primitive, the box [prim-1]. *)
Definition basePlate : Primitive :=
  mkPrimitive "prim-1" "Base Plate" box add
    (mkVec3 (Fin 0) (Fin 0) (Fin (1 # 2)))
    (boxDims (Fin 6) (Fin 1) (Fin 6)).

(** A proxy dragged to (1.234, 2.5, -0.706) and stretched. *)
Definition draggedProxy : Proxy :=
  mkProxy (mkVec3 (Fin (1234 # 1000)) (Fin (5 # 2)) (Fin (-706 # 1000)))
    (mkVec3 (Fin 2) (Fin (1 # 2)) (Fin 3)).

(** The initial store in move mode, every proxy at [draggedProxy]. *)
Definition draggedWorkspace : Workspace :=
  mkWorkspace initialStore move (fun _ => None) (fun _ => Some draggedProxy).

(** A resize session on [prim-1] that is started, dragged twice and then
    dropped by selecting [prim-2]. *)
Definition discardedResize : list Event :=
  [ SetHandleMode resize; GizmoMouseDown; GizmoDrag draggedProxy;
    GizmoDrag draggedProxy; PointerDownOn "prim-2" ].

(** * Properties *)

(** ** Rounding and clamping *)

Lemma Qdiv_100 (k : Q) : k / 100 == k * (1 # 100).
Proof. unfold Qdiv. reflexivity. Qed.

Lemma Qle_bool_false (p q : Q) : Qle_bool p q = false <-> q < p.
Proof.
  split; intros H.
  - destruct (Qlt_le_dec q p) as [L|L]; [exact L|].
    apply Qle_bool_iff in L. congruence.
  - apply not_true_is_false. intros F. apply Qle_bool_iff in F. lra.
Qed.

Lemma overflowBound_large : inject_Z (10 ^ 300) <= overflowBound.
Proof. unfold overflowBound. rewrite <- Zle_Qle. apply Z.leb_le. vm_compute. reflexivity. Qed.

Lemma mul_Fin (p q : Q) : JsNum.mul (Fin p) (Fin q) = overflow (p * q).
Proof. reflexivity. Qed.

Lemma overflow_cases (r : Q) :
  (overflowBound <= r /\ overflow r = PosInf)
  \/ (r <= - overflowBound /\ overflow r = NegInf)
  \/ (- overflowBound < r /\ r < overflowBound /\ overflow r = Fin r).
Proof.
  unfold overflow.
  destruct (Qle_bool overflowBound r) eqn:E1.
  - left. split; [apply Qle_bool_iff; exact E1 | reflexivity].
  - right. apply Qle_bool_false in E1.
    destruct (Qle_bool r (- overflowBound)) eqn:E2.
    + left. split; [apply Qle_bool_iff; exact E2 | reflexivity].
    + right. apply Qle_bool_false in E2. repeat split; assumption.
Qed.

Lemma overflow_small (r : Q) :
  - overflowBound < r -> r < overflowBound -> overflow r = Fin r.
Proof.
  intros Hlo Hhi.
  destruct (overflow_cases r) as [[H _]|[[H _]|(_ & _ & E)]]; [lra | lra | exact E].
Qed.

Lemma roundValue_unfold (c : number) :
  roundValue c = JsNum.div (JsNum.round (JsNum.mul c (Fin 100))) (Fin 100).
Proof. reflexivity. Qed.

Lemma hundredths_Fin (k : Z) : hundredths k = Fin (inject_Z k / 100).
Proof. reflexivity. Qed.

Lemma nearestInteger_floor (p : Q) : nearestInteger p (Qfloor (p + (1 # 2))).
Proof.
  pose proof (Qfloor_le (p + (1 # 2))) as Hlo.
  pose proof (Qlt_floor (p + (1 # 2))) as Hhi.
  rewrite inject_Z_plus in Hhi. change (inject_Z 1) with 1 in Hhi.
  unfold nearestInteger. split; lra.
Qed.

Lemma Qfloor_unique (x : Q) (z : Z) :
  inject_Z z <= x -> x < inject_Z (z + 1) -> Qfloor x = z.
Proof.
  intros Hlo Hhi.
  pose proof (Qfloor_le x) as Flo. pose proof (Qlt_floor x) as Fhi.
  assert (H1 : (z < Qfloor x + 1)%Z).
  { rewrite Zlt_Qlt. eapply Qle_lt_trans; eassumption. }
  assert (H2 : (Qfloor x < z + 1)%Z).
  { rewrite Zlt_Qlt. eapply Qle_lt_trans; eassumption. }
  lia.
Qed.

Lemma nearestInteger_unique (p : Q) (k : Z) :
  nearestInteger p k -> Qfloor (p + (1 # 2)) = k.
Proof.
  intros [Hlo Hhi]. apply Qfloor_unique.
  - lra.
  - rewrite inject_Z_plus. change (inject_Z 1) with 1. lra.
Qed.

(** The value of [roundValue] when the product by 100 is finite. *)
Lemma roundValue_of_product (c : number) (p : Q) :
  JsNum.mul c (Fin 100) = Fin p -> roundValue c = hundredths (Qfloor (p + (1 # 2))).
Proof. intros E. rewrite roundValue_unfold, E. reflexivity. Qed.

Lemma roundValue_nonfinite (v : number) :
  isFinite v = false -> roundValue v = v.
Proof. destruct v; simpl; intros H; try discriminate; reflexivity. Qed.

Lemma roundValue_rounds (c : number) : roundedBy c (roundValue c).
Proof.
  unfold roundedBy. rewrite roundValue_unfold.
  destruct (JsNum.mul c (Fin 100)) as [p| | |]; try reflexivity.
  exists (Qfloor (p + (1 # 2))). split; [apply nearestInteger_floor | reflexivity].
Qed.

(** The three outcomes of [roundValue] on a finite number. *)
Lemma roundValue_Fin_cases (q : Q) :
  (overflowBound <= q * 100 /\ roundValue (Fin q) = PosInf)
  \/ (q * 100 <= - overflowBound /\ roundValue (Fin q) = NegInf)
  \/ (- overflowBound < q * 100 /\ q * 100 < overflowBound
      /\ roundValue (Fin q) = hundredths (Qfloor (q * 100 + (1 # 2)))).
Proof.
  rewrite roundValue_unfold, mul_Fin.
  destruct (overflow_cases (q * 100)) as [[H E]|[[H E]|(H1 & H2 & E)]]; rewrite E.
  - left. split; [exact H | reflexivity].
  - right. left. split; [exact H | reflexivity].
  - right. right. repeat split; assumption.
Qed.

Lemma roundValue_small (q : Q) :
  - overflowBound < q * 100 -> q * 100 < overflowBound ->
  roundValue (Fin q) = hundredths (Qfloor (q * 100 + (1 # 2))).
Proof.
  intros Hlo Hhi.
  destruct (roundValue_Fin_cases q) as [[H _]|[[H _]|(_ & _ & E)]]; [lra | lra | exact E].
Qed.

Lemma clampDimension_Fin (q : Q) :
  exists c, clampDimension (Fin q) = Fin c /\ c == Qmax (1 # 10) q
            /\ (1 # 10 <= q -> c = q).
Proof.
  unfold clampDimension, clampDimensionWith. simpl.
  destruct (Qle_bool (1 # 10) q) eqn:E.
  - exists q. split; [reflexivity|]. split; [|reflexivity].
    apply Qle_bool_iff in E. symmetry. apply Q.max_r. exact E.
  - exists (1 # 10). split; [reflexivity|].
    apply Qle_bool_false in E. split; [|lra].
    symmetry. apply Q.max_l. lra.
Qed.

Lemma clampDimension_nonfinite (v : number) :
  isFinite v = false -> clampDimension v = Fin (1 # 10).
Proof. destruct v; simpl; intros H; try discriminate; reflexivity. Qed.

Lemma clampDimension_floor (v : number) :
  exists c, clampDimension v = Fin c /\ 1 # 10 <= c.
Proof.
  destruct v as [q| | |].
  - destruct (clampDimension_Fin q) as (c & E & Hc & _). exists c. split; [exact E|].
    rewrite Hc. apply Q.le_max_l.
  - exists (1 # 10). split; [reflexivity | lra].
  - exists (1 # 10). split; [reflexivity | lra].
  - exists (1 # 10). split; [reflexivity | lra].
Qed.


(** Rounding a finite number not below [lo] hundredths gives at least [lo]
    hundredths, or overflows to [Infinity]. *)
Lemma roundValue_from (lo : Z) (c : Q) :
  (0 <= lo)%Z -> inject_Z lo / 100 <= c -> hundredthsFrom lo (roundValue (Fin c)).
Proof.
  intros H0 Hc. rewrite Qdiv_100 in Hc.
  assert (Hz : 0 <= inject_Z lo) by (rewrite Zle_Qle in H0; exact H0).
  pose proof overflowBound_large as HB.
  assert (HB' : 0 < inject_Z (10 ^ 300)) by reflexivity.
  destruct (roundValue_Fin_cases c) as [[_ E]|[[H _]|(_ & _ & E)]].
  - left. exact E.
  - lra.
  - right. exists (Qfloor (c * 100 + (1 # 2))). split; [|exact E].
    rewrite <- (Qfloor_Z lo) at 1. apply Qfloor_resp_le. lra.
Qed.

Lemma hundredthsFrom_floor (lo : Z) (v : number) :
  (10 <= lo)%Z -> hundredthsFrom lo v -> fieldFromFloor (Some v).
Proof.
  intros Hlo [->|(k & Hk & ->)]; [exact I|].
  rewrite hundredths_Fin. simpl.
  assert (H : (10 <= k)%Z) by lia. rewrite Zle_Qle in H.
  change (inject_Z 10) with 10 in H. rewrite Qdiv_100. lra.
Qed.


Lemma resolved_hundredths (v : number) :
  hundredthsFrom 10 (roundValue (clampDimension v)).
Proof.
  destruct (clampDimension_floor v) as (c & -> & Hc).
  apply roundValue_from; [lia|]. change (inject_Z 10 / 100) with (10 # 100).
  assert (E : 10 # 100 == 1 # 10) by reflexivity. lra.
Qed.

Lemma resolved_floor (v : number) :
  fieldFromFloor (Some (roundValue (clampDimension v))).
Proof. apply (@hundredthsFrom_floor 10); [lia | apply resolved_hundredths]. Qed.

(** ** Dimension-from-scale resolver *)

Lemma computeScaledDimensions_some (type : ShapeType) (base : Dimensions) (s : Vec3) :
  exists n, computeScaledDimensions type base (Some s) = Some n.
Proof. destruct type; eexists; reflexivity. Qed.

Lemma computeScaledDimensions_floor (type : ShapeType) (base : Dimensions) (s : Vec3) :
  exists n, computeScaledDimensions type base (Some s) = Some n
            /\ resolvedFromFloor type n.
Proof.
  destruct type; eexists; (split; [reflexivity|]); cbn [resolvedFromFloor];
    cbn [width height depth radius]; repeat split; apply resolved_floor.
Qed.


(** Scale clamp (spec section 8): a sphere of radius 1 scaled by (0,0,0). *)
Example scale_clamp_sphere :
  computeScaledDimensions sphere (sphereDims (Fin 1))
    (Some (mkVec3 (Fin 0) (Fin 0) (Fin 0)))
  = Some (sphereDims (Fin (10 # 100))).
Proof. vm_compute. reflexivity. Qed.

(** Box anisotropic scale (spec section 8). *)
Example scale_box_anisotropic :
  match computeScaledDimensions box (boxDims (Fin 2) (Fin 2) (Fin 2))
          (Some (mkVec3 (Fin 2) (Fin (1 # 2)) (Fin 3))) with
  | Some (mkDims (Some (Fin w)) (Some (Fin h)) (Some (Fin d)) None) =>
      w == 4 /\ h == 1 /\ d == 6
  | _ => False
  end.
Proof. vm_compute. repeat split; reflexivity. Qed.

(** A width of 10^307 at the unit scale: the product by 100 inside
    [roundValue] overflows, and the width returned is [Infinity]. *)
Example scale_overflow :
  computeScaledDimensions box (boxDims (Fin (inject_Z (10 ^ 307))) (Fin 1) (Fin 1))
    (Some (mkVec3 (Fin 1) (Fin 1) (Fin 1)))
  = Some (boxDims PosInf (Fin (100 # 100)) (Fin (100 # 100))).
Proof. vm_compute. reflexivity. Qed.

(** A product that overflows is not finite, so it is clamped to the floor:
    a width of 10^200 scaled by 10^200 becomes 1/10. *)
Example scale_product_overflow :
  computeScaledDimensions box (boxDims (Fin (inject_Z (10 ^ 200))) (Fin 1) (Fin 1))
    (Some (mkVec3 (Fin (inject_Z (10 ^ 200))) (Fin 1) (Fin 1)))
  = Some (boxDims (Fin (10 # 100)) (Fin (100 # 100)) (Fin (100 # 100))).
Proof. vm_compute. reflexivity. Qed.

(** ** Coordinate remap *)

(** C4: [positionToWorld] and [positionFromWorld] are mutual inverses,
    exactly: each composite returns the position it was given. *)
Theorem remap_involution (p : Vec3) :
  positionFromWorld (positionToWorld p) = p
  /\ positionToWorld (positionFromWorld p) = p.
Proof. destruct p as [a b c]. split; reflexivity. Qed.

Lemma round_remap_commute (p : Vec3) :
  positionFromWorld (roundVec3 p) = roundVec3 (positionFromWorld p).
Proof. destruct p as [a b c]. reflexivity. Qed.

(** ** Patching by id *)

Lemma find_map_same {A : Type} (P : A -> bool) (f : A -> A) (l : list A) :
  (forall a, P (f a) = P a) ->
  find P (map f l) = option_map f (find P l).
Proof.
  intros HP. induction l as [|a l IH]; simpl; [reflexivity|].
  rewrite HP. destruct (P a); [reflexivity | exact IH].
Qed.

Lemma handleTransformPrimitive_position (id : string) (pos : Vec3) (st : Store) :
  handleTransformPrimitive id (mkPayload (Some pos) None) st
  = mkStore
      (map (fun item => if (p_id item =? id)%string then withPosition item pos else item)
           (primitives st))
      (selectedId st).
Proof.
  unfold handleTransformPrimitive, patchPrimitive, setPrimitives. f_equal.
  apply map_ext. intros item. destruct (p_id item =? id)%string; reflexivity.
Qed.

Lemma handleTransformPrimitive_dimensions (id : string) (d : Dimensions) (st : Store) :
  handleTransformPrimitive id (mkPayload None (Some d)) st
  = mkStore
      (map (fun item => if (p_id item =? id)%string then withDimensions item d else item)
           (primitives st))
      (selectedId st).
Proof.
  unfold handleTransformPrimitive, patchPrimitive, setPrimitives. f_equal.
  apply map_ext. intros item. destruct (p_id item =? id)%string; reflexivity.
Qed.


(** ** Translate commit *)


(** ** Lists of primitives *)

Lemma filter_absent (id : string) (l : list Primitive) :
  ~ In id (ids l) ->
  filter (fun item => negb (p_id item =? id)%string) l = l.
Proof.
  induction l as [|a l IH]; simpl; intros H; [reflexivity|].
  destruct (String.eqb_spec (p_id a) id) as [E|E]; simpl.
  - exfalso. apply H. left. exact E.
  - f_equal. apply IH. intros Hin. apply H. right. exact Hin.
Qed.

Lemma filter_removes_one (id : string) (l1 l2 : list Primitive) (x : Primitive) :
  p_id x = id -> ~ In id (ids l1) -> ~ In id (ids l2) ->
  filter (fun item => negb (p_id item =? id)%string) (l1 ++ x :: l2) = l1 ++ l2.
Proof.
  intros Hx H1 H2. rewrite filter_app. simpl.
  rewrite (proj2 (String.eqb_eq (p_id x) id) Hx). simpl.
  rewrite !filter_absent by assumption. reflexivity.
Qed.

Lemma ids_split (id : string) (l : list Primitive) :
  In id (ids l) ->
  exists l1 x l2, l = l1 ++ x :: l2 /\ p_id x = id /\ ~ In id (ids l1).
Proof.
  induction l as [|a l IH]; simpl; intros H; [contradiction|].
  destruct (string_dec (p_id a) id) as [E|E].
  - exists [], a, l. repeat split; [exact E | intros []].
  - destruct H as [H|H]; [contradiction|].
    destruct (IH H) as (l1 & x & l2 & El & Ex & Hn).
    exists (a :: l1), x, l2. subst l. repeat split; [exact Ex|].
    simpl. intros [F|F]; [contradiction | exact (Hn F)].
Qed.

Lemma ids_app (l1 l2 : list Primitive) : ids (l1 ++ l2) = ids l1 ++ ids l2.
Proof. unfold ids. apply map_app. Qed.

Lemma nodup_split_absent (l1 l2 : list Primitive) (x : Primitive) :
  NoDup (ids (l1 ++ x :: l2)) -> ~ In (p_id x) (ids l1) /\ ~ In (p_id x) (ids l2).
Proof.
  rewrite ids_app. simpl. intros H.
  apply NoDup_remove_2 in H. split; intros F; apply H; apply in_or_app; auto.
Qed.

Lemma lastId_snoc (front : list Primitive) (lst : Primitive) :
  lastId (front ++ [lst]) = Some (p_id lst).
Proof.
  unfold lastId. rewrite length_app. simpl.
  replace (List.length front + 1 - 1)%nat with (List.length front + 0)%nat by lia.
  rewrite nth_error_app2 by lia.
  replace (List.length front + 0 - List.length front)%nat with 0%nat by lia.
  reflexivity.
Qed.

Lemma nonempty_snoc {A : Type} (l : list A) :
  l <> [] -> exists front lst, l = front ++ [lst].
Proof.
  intros H. destruct (exists_last H) as (front & lst & E). eauto.
Qed.

Lemma lastId_defined (filtered : list Primitive) :
  filtered <> [] -> exists i, lastId filtered = Some i /\ In i (ids filtered).
Proof.
  intros H. destruct (nonempty_snoc H) as (front & lst & E). subst.
  exists (p_id lst). split; [apply lastId_snoc|].
  rewrite ids_app. apply in_or_app. right. left. reflexivity.
Qed.

Lemma existsb_selected (current : option string) (filtered : list Primitive) :
  existsb (fun item => optString_eqb (Some (p_id item)) current) filtered = true
  <-> exists s, current = Some s /\ In s (ids filtered).
Proof.
  rewrite existsb_exists. split.
  - intros (x & Hx & E). destruct current as [s|]; simpl in E; [|discriminate].
    apply String.eqb_eq in E. exists s. split; [reflexivity|].
    subst s. unfold ids. apply in_map. exact Hx.
  - intros (s & Ec & Hs). subst current. unfold ids in Hs.
    apply in_map_iff in Hs. destruct Hs as (x & Ex & Hx).
    exists x. split; [exact Hx|]. simpl. apply String.eqb_eq. exact Ex.
Qed.

Lemma length_zero_nil {A : Type} (l : list A) :
  (List.length l =? 0)%nat = true <-> l = [].
Proof.
  destruct l; simpl; split; intros H; try reflexivity; discriminate.
Qed.

(** The selection left by [removePrimitive], case by case. *)
Lemma removePrimitive_selection (id : string) (st : Store) :
  let filtered := primitives (removePrimitive id st) in
  selectedId (removePrimitive id st)
  = match filtered with
    | [] => None
    | _ =>
        if optString_eqb (selectedId st) (Some id)
           || negb (existsb (fun item => optString_eqb (Some (p_id item)) (selectedId st))
                      filtered)
        then lastId filtered
        else selectedId st
    end.
Proof.
  unfold removePrimitive. simpl.
  destruct (filter _ (primitives st)); reflexivity.
Qed.

(** ** Removal *)

Lemma optString_eqb_eq (a b : option string) : optString_eqb a b = true <-> a = b.
Proof.
  destruct a as [s|], b as [t|]; simpl; split; intros H;
    try reflexivity; try discriminate.
  - apply String.eqb_eq in H. congruence.
  - apply String.eqb_eq. congruence.
Qed.

(** C6: for an id present in a store of distinct ids, [removePrimitive]
    deletes exactly the primitive of that id; when the store becomes empty
    the selection is none; when the removed primitive was selected and the
    store stays non-empty the selection is the id of the new last element. *)
Theorem removePrimitive_deletes (id : string) (st : Store) :
  In id (ids (primitives st)) ->
  NoDup (ids (primitives st)) ->
  exists l1 x l2,
    primitives st = l1 ++ x :: l2
    /\ p_id x = id
    /\ primitives (removePrimitive id st) = l1 ++ l2
    /\ (l1 ++ l2 = [] -> selectedId (removePrimitive id st) = None)
    /\ (selectedId st = Some id ->
        forall front lst, l1 ++ l2 = front ++ [lst] ->
                          selectedId (removePrimitive id st) = Some (p_id lst)).
Proof.
  intros Hin Hnd.
  destruct (ids_split _ _ Hin) as (l1 & x & l2 & El & Ex & Hn1).
  exists l1, x, l2.
  assert (Hn2 : ~ In id (ids l2)).
  { rewrite El in Hnd. apply nodup_split_absent in Hnd. subst id. tauto. }
  assert (Hf : primitives (removePrimitive id st) = l1 ++ l2).
  { unfold removePrimitive. simpl. rewrite El.
    apply filter_removes_one; assumption. }
  split; [exact El|]. split; [exact Ex|]. split; [exact Hf|].
  pose proof (removePrimitive_selection id st) as Hs. cbv zeta in Hs.
  rewrite Hf in Hs. split.
  - intros E. rewrite E in Hs. exact Hs.
  - intros Hsel front lst E. rewrite Hs, E.
    rewrite Hsel. simpl. rewrite String.eqb_refl. simpl.
    destruct (front ++ [lst]) eqn:E'.
    + destruct front; discriminate.
    + rewrite <- E'. apply lastId_snoc.
Qed.

(** C10: after [removePrimitive] the selection is none when the list left is
    empty; otherwise it is the id of the last element left whenever the old
    selection was none, was the removed id, or names no element left, and it
    is the old selection when that names an element left; so on a non-empty
    list an unchanged selection always names an element left. *)
Theorem removePrimitive_reselects (id : string) (st : Store) :
  let filtered := primitives (removePrimitive id st) in
  let selected' := selectedId (removePrimitive id st) in
  (filtered = [] -> selected' = None)
  /\ (forall front lst,
         filtered = front ++ [lst] ->
         (selectedId st = None
          \/ selectedId st = Some id
          \/ exists s, selectedId st = Some s /\ ~ In s (ids filtered)) ->
         selected' = Some (p_id lst))
  /\ (forall s,
         selectedId st = Some s -> s <> id -> In s (ids filtered) ->
         selected' = Some s)
  /\ (filtered <> [] -> selected' = selectedId st ->
      exists s, selectedId st = Some s /\ In s (ids filtered)).
Proof.
  intros filtered selected'.
  pose proof (removePrimitive_selection id st) as Hs.
  fold filtered selected' in Hs. cbv zeta in Hs.
  split; [|split; [|split]].
  - intros E. rewrite Hs, E. reflexivity.
  - intros front lst E Hcase. rewrite Hs.
    assert (Hc : optString_eqb (selectedId st) (Some id)
                 || negb (existsb (fun item => optString_eqb (Some (p_id item)) (selectedId st))
                            filtered) = true).
    { apply orb_true_iff.
      destruct Hcase as [H|[H|(s & H & Hn)]].
      - right. apply negb_true_iff. apply not_true_is_false.
        intros F. apply existsb_selected in F. destruct F as (s & F & _). congruence.
      - left. apply optString_eqb_eq. exact H.
      - right. apply negb_true_iff. apply not_true_is_false.
        intros F. apply existsb_selected in F. destruct F as (s' & F & Hin).
        rewrite H in F. injection F as ->. exact (Hn Hin). }
    rewrite Hc. rewrite E. destruct (front ++ [lst]) eqn:E'.
    + destruct front; discriminate.
    + rewrite <- E'. apply lastId_snoc.
  - intros s Hsel Hne Hin. rewrite Hs.
    destruct filtered as [|a l] eqn:Ef; [destruct Hin|]. rewrite <- Ef in *.
    assert (H1 : optString_eqb (selectedId st) (Some id) = false).
    { apply not_true_is_false. intros F. apply optString_eqb_eq in F. congruence. }
    assert (H2 : existsb (fun item => optString_eqb (Some (p_id item)) (selectedId st))
                   filtered = true).
    { apply existsb_selected. exists s. split; assumption. }
    rewrite H1, H2. simpl. exact Hsel.
  - intros Hne Hsame. rewrite Hs in Hsame.
    destruct filtered as [|a l] eqn:Ef; [contradiction|]. rewrite <- Ef in *.
    destruct (existsb (fun item => optString_eqb (Some (p_id item)) (selectedId st))
                filtered) eqn:Hex.
    + apply existsb_selected in Hex. exact Hex.
    + rewrite orb_true_r in Hsame.
      destruct (lastId_defined Hne) as (i & Hi & Hin).
      exists i. split; [congruence | exact Hin].
Qed.

(** ** Reordering *)

Lemma findIndexFrom_absent {A : Type} (f : A -> bool) (l : list A) (i : Z) :
  (forall x, In x l -> f x = false) -> findIndexFrom f l i = (-1)%Z.
Proof.
  revert i. induction l as [|a l IH]; simpl; intros i H; [reflexivity|].
  rewrite (H a) by (left; reflexivity). apply IH. intros x Hx. apply H. right. exact Hx.
Qed.

Lemma findIndexFrom_first {A : Type} (f : A -> bool) (l1 l2 : list A) (a : A) (i : Z) :
  (forall x, In x l1 -> f x = false) -> f a = true ->
  findIndexFrom f (l1 ++ a :: l2) i = (i + Z.of_nat (List.length l1))%Z.
Proof.
  revert i. induction l1 as [|b l1 IH]; simpl; intros i H Ha.
  - rewrite Ha. lia.
  - rewrite (H b) by (left; reflexivity).
    rewrite IH; [lia | | exact Ha]. intros x Hx. apply H. right. exact Hx.
Qed.

Lemma id_test_absent (id : string) (l : list Primitive) :
  ~ In id (ids l) ->
  forall x, In x l -> (p_id x =? id)%string = false.
Proof.
  intros H x Hx. apply String.eqb_neq. intros E. apply H.
  subst id. unfold ids. apply in_map. exact Hx.
Qed.

Lemma skipn_past {A : Type} (l1 l2 : list A) (a : A) :
  skipn (S (List.length l1)) (l1 ++ a :: l2) = l2.
Proof. induction l1 as [|b l1 IH]; [reflexivity | exact IH]. Qed.

Lemma spliceOut_at {A : Type} (l1 l2 : list A) (a : A) :
  spliceOut (List.length l1) (l1 ++ a :: l2) = (Some a, l1 ++ l2).
Proof.
  unfold spliceOut. f_equal.
  - rewrite nth_error_app2 by lia. rewrite Nat.sub_diag. reflexivity.
  - rewrite firstn_app, Nat.sub_diag, firstn_all. simpl. rewrite app_nil_r.
    f_equal. apply skipn_past.
Qed.

Lemma spliceIn_at {A : Type} (l1 l2 : list A) (m : A) :
  spliceIn (List.length l1) m (l1 ++ l2) = l1 ++ m :: l2.
Proof.
  unfold spliceIn.
  rewrite firstn_app, Nat.sub_diag, firstn_all. simpl. rewrite app_nil_r.
  rewrite skipn_app, Nat.sub_diag, skipn_all. reflexivity.
Qed.

(** [reorderPrimitive] on the first element carrying the id, when the target
    index is inside the list. *)
Lemma reorderPrimitive_moves (l1 l2 : list Primitive) (a : Primitive)
  (direction : Z) (sel : option string) :
  ~ In (p_id a) (ids l1) ->
  (0 <= Z.of_nat (List.length l1) + direction < Z.of_nat (List.length (l1 ++ a :: l2)))%Z ->
  reorderPrimitive (p_id a) direction (mkStore (l1 ++ a :: l2) sel)
  = mkStore (spliceIn (Z.to_nat (Z.of_nat (List.length l1) + direction)) a (l1 ++ l2)) sel.
Proof.
  intros Hn Hr. unfold reorderPrimitive, setPrimitives. cbn [primitives selectedId]. f_equal.
  unfold findIndex. rewrite findIndexFrom_first;
    [| apply id_test_absent; exact Hn | apply String.eqb_refl].
  rewrite Z.add_0_l.
  destruct (Z.eqb_spec (Z.of_nat (List.length l1)) (-1)) as [E|_]; [lia|].
  destruct (Z.ltb_spec (Z.of_nat (List.length l1) + direction) 0) as [E|_]; [lia|].
  destruct (Z.geb_spec (Z.of_nat (List.length l1) + direction)
              (Z.of_nat (List.length (l1 ++ a :: l2)))) as [E|_]; [lia|].
  cbn [orb]. rewrite Nat2Z.id, spliceOut_at. reflexivity.
Qed.

(** [reorderPrimitive] on the first element carrying the id, when the target
    index is outside the list. *)
Lemma reorderPrimitive_boundary (l1 l2 : list Primitive) (a : Primitive)
  (direction : Z) (sel : option string) :
  ~ In (p_id a) (ids l1) ->
  (Z.of_nat (List.length l1) + direction < 0
   \/ Z.of_nat (List.length (l1 ++ a :: l2)) <= Z.of_nat (List.length l1) + direction)%Z ->
  reorderPrimitive (p_id a) direction (mkStore (l1 ++ a :: l2) sel)
  = mkStore (l1 ++ a :: l2) sel.
Proof.
  intros Hn Hr. unfold reorderPrimitive, setPrimitives. cbn [primitives selectedId]. f_equal.
  unfold findIndex. rewrite findIndexFrom_first;
    [| apply id_test_absent; exact Hn | apply String.eqb_refl].
  rewrite Z.add_0_l.
  destruct (Z.eqb_spec (Z.of_nat (List.length l1)) (-1)) as [E|_]; [lia|].
  destruct (Z.ltb_spec (Z.of_nat (List.length l1) + direction) 0) as [E|E];
    [reflexivity|].
  destruct (Z.geb_spec (Z.of_nat (List.length l1) + direction)
              (Z.of_nat (List.length (l1 ++ a :: l2)))) as [E'|E']; [reflexivity | lia].
Qed.

Lemma patchPrimitive_absent (id : string) (updater : Updater) (st : Store) :
  ~ In id (ids (primitives st)) -> patchPrimitive id updater st = st.
Proof.
  intros H. destruct st as [items sel]. unfold patchPrimitive, setPrimitives.
  cbn [primitives selectedId] in *. f_equal.
  rewrite <- (map_id items) at 2. apply map_ext_in. intros item Hitem.
  rewrite (id_test_absent _ _ H item Hitem). reflexivity.
Qed.

Lemma removePrimitive_absent (id : string) (st : Store) :
  ~ In id (ids (primitives st)) -> primitives (removePrimitive id st) = primitives st.
Proof. intros H. unfold removePrimitive. simpl. apply filter_absent. exact H. Qed.

Lemma removePrimitive_absent_cases (id : string) (st : Store) :
  ~ In id (ids (primitives st)) ->
  primitives (removePrimitive id st) = primitives st
  /\ ((exists s, selectedId st = Some s /\ In s (ids (primitives st))) ->
      removePrimitive id st = st)
  /\ (primitives st = [] -> selectedId (removePrimitive id st) = None)
  /\ (forall front lst,
         primitives st = front ++ [lst] ->
         (selectedId st = None
          \/ exists s, selectedId st = Some s /\ ~ In s (ids (primitives st))) ->
         selectedId (removePrimitive id st) = Some (p_id lst)).
Proof.
  intros Habs.
  pose proof (removePrimitive_absent id st Habs) as Hl.
  pose proof (removePrimitive_selection id st) as Hs. cbv zeta in Hs.
  rewrite Hl in Hs.
  split; [exact Hl|]. split; [|split].
  - intros (s & Hsel & Hin).
    assert (H1 : optString_eqb (selectedId st) (Some id) = false).
    { apply not_true_is_false. intros F. apply optString_eqb_eq in F.
      rewrite Hsel in F. injection F as ->. exact (Habs Hin). }
    assert (H2 : existsb (fun item => optString_eqb (Some (p_id item)) (selectedId st))
                   (primitives st) = true).
    { apply existsb_selected. exists s. split; assumption. }
    rewrite H1, H2 in Hs. cbn [orb negb] in Hs.
    destruct st as [items sel].
    destruct (removePrimitive id (mkStore items sel)) as [items' sel'].
    cbn [primitives selectedId] in *. subst items'.
    destruct items; [destruct Hin | congruence].
  - intros E. rewrite E in Hs. exact Hs.
  - intros front lst E Hcase.
    assert (H2 : existsb (fun item => optString_eqb (Some (p_id item)) (selectedId st))
                   (primitives st) = false).
    { apply not_true_is_false. intros F. apply existsb_selected in F.
      destruct F as (s & Hsel & Hin).
      destruct Hcase as [H|(s' & H & Hn)]; [congruence|].
      rewrite Hsel in H. injection H as ->. exact (Hn Hin). }
    rewrite H2, orb_true_r, E in Hs. rewrite Hs.
    destruct (front ++ [lst]) eqn:E'.
    + destruct front; discriminate.
    + rewrite <- E'. apply lastId_snoc.
Qed.

Lemma reorderPrimitive_absent (id : string) (direction : Z) (st : Store) :
  ~ In id (ids (primitives st)) -> reorderPrimitive id direction st = st.
Proof.
  intros H. destruct st as [items sel]. unfold reorderPrimitive, setPrimitives.
  cbn [primitives selectedId] in *. f_equal.
  unfold findIndex. rewrite findIndexFrom_absent; [reflexivity|].
  apply id_test_absent. exact H.
Qed.

(** C7, amended: with an id that is not in the store, [patchPrimitive] and
    [reorderPrimitive] return the store they were given; [removePrimitive]
    returns the same list, and the same selection when that names a
    primitive of the list, but on an empty list it clears the selection and
    on a non-empty list with no selection, or with one that names no
    primitive of the list, it selects the last element.  [reorderPrimitive]
    leaves the list as it is on the first element with direction -1 and on
    the last element with direction +1; with direction +1 or -1 on an
    element that has a neighbour on that side it exchanges the two.  The one
    indexed read of the mutators, the id of the last element left by a
    removal, is always defined where it is read. *)
Theorem mutators_noop_and_swap :
  (forall id updater st,
      ~ In id (ids (primitives st)) -> patchPrimitive id updater st = st)
  /\ (forall id st,
      ~ In id (ids (primitives st)) ->
      primitives (removePrimitive id st) = primitives st
      /\ ((exists s, selectedId st = Some s /\ In s (ids (primitives st))) ->
          removePrimitive id st = st)
      /\ (primitives st = [] -> selectedId (removePrimitive id st) = None)
      /\ (forall front lst,
             primitives st = front ++ [lst] ->
             (selectedId st = None
              \/ exists s, selectedId st = Some s /\ ~ In s (ids (primitives st))) ->
             selectedId (removePrimitive id st) = Some (p_id lst)))
  /\ (forall id direction st,
      ~ In id (ids (primitives st)) -> reorderPrimitive id direction st = st)
  /\ (forall first rest sel,
      reorderPrimitive (p_id first) (-1) (mkStore (first :: rest) sel)
      = mkStore (first :: rest) sel)
  /\ (forall front lst sel,
      ~ In (p_id lst) (ids front) ->
      reorderPrimitive (p_id lst) 1 (mkStore (front ++ [lst]) sel)
      = mkStore (front ++ [lst]) sel)
  /\ (forall l1 a b l2 sel,
      ~ In (p_id a) (ids l1) ->
      reorderPrimitive (p_id a) 1 (mkStore (l1 ++ a :: b :: l2) sel)
      = mkStore (l1 ++ b :: a :: l2) sel)
  /\ (forall l1 b a l2 sel,
      ~ In (p_id a) (ids l1) -> p_id b <> p_id a ->
      reorderPrimitive (p_id a) (-1) (mkStore (l1 ++ b :: a :: l2) sel)
      = mkStore (l1 ++ a :: b :: l2) sel)
  /\ (forall id st,
      primitives (removePrimitive id st) <> [] ->
      exists i, lastId (primitives (removePrimitive id st)) = Some i).
Proof.
  split; [exact patchPrimitive_absent|].
  split; [exact removePrimitive_absent_cases|].
  split; [exact reorderPrimitive_absent|].
  split; [|split; [|split; [|split]]].
  - intros first rest sel.
    apply (reorderPrimitive_boundary [] rest first (-1) sel); [intros []|].
    left. simpl. lia.
  - intros front lst sel Hn.
    apply (reorderPrimitive_boundary front [] lst 1 sel Hn).
    right. rewrite length_app. simpl. lia.
  - intros l1 a b l2 sel Hn.
    rewrite reorderPrimitive_moves; [| exact Hn |].
    + f_equal.
      replace (Z.to_nat (Z.of_nat (List.length l1) + 1)) with (List.length (l1 ++ [b])).
      * change (l1 ++ b :: l2) with (l1 ++ [b] ++ l2). rewrite app_assoc.
        rewrite spliceIn_at. rewrite <- app_assoc. reflexivity.
      * rewrite length_app. simpl. lia.
    + rewrite length_app. simpl. lia.
  - intros l1 b a l2 sel Hn Hne.
    change (l1 ++ b :: a :: l2) with (l1 ++ [b] ++ a :: l2). rewrite app_assoc.
    rewrite reorderPrimitive_moves.
    + f_equal.
      replace (Z.to_nat (Z.of_nat (List.length (l1 ++ [b])) + -1)) with (List.length l1).
      * rewrite <- app_assoc. apply spliceIn_at.
      * rewrite length_app. simpl. lia.
    + rewrite ids_app. intros F. apply in_app_or in F. destruct F as [F|F].
      * exact (Hn F).
      * simpl in F. destruct F as [F|[]]. exact (Hne F).
    + rewrite !length_app. simpl. lia.
  - intros id st H. destruct (lastId_defined H) as (i & Hi & _). eauto.
Qed.

(** C7 as stated does not hold of [removePrimitive]: on the store [X, Y, Z]
    with nothing selected, removing the absent id [W] selects [Z]. *)
Lemma removePrimitive_absent_changes_selection :
  ~ (forall id st, ~ In id (ids (primitives st)) -> removePrimitive id st = st).
Proof.
  intros H.
  specialize (H "W" (mkStore (primitives storeXYZ) None)).
  assert (Habs : ~ In "W" (ids (primitives (mkStore (primitives storeXYZ) None)))).
  { simpl. intuition discriminate. }
  specialize (H Habs). discriminate H.
Qed.

(** ** Adding *)

(** C9: [addPrimitive] appends one primitive of the requested type and
    selects it; its operation is subtract for a sphere and add for a box or
    a cylinder. *)
Theorem addPrimitive_operation (suffix : string) (rnd : Q) (type : ShapeType) (st : Store) :
  exists p,
    primitives (addPrimitive suffix rnd type st) = primitives st ++ [p]
    /\ selectedId (addPrimitive suffix rnd type st) = Some (p_id p)
    /\ p_type p = type
    /\ p_dimensions p = preset_dimensions (TYPE_PRESETS type)
    /\ p_operation p = match type with
                       | sphere => subtract
                       | box | cylinder => add
                       end.
Proof.
  eexists. split; [reflexivity|]. split; [reflexivity|].
  split; [reflexivity|]. split; [reflexivity|].
  destruct type; reflexivity.
Qed.

(** ** Solid builder *)

Section SolidBuilder.

Context {G : BooleanGeometry}.

Lemma combineStep_spec (acc : CSG) (p : Primitive) :
  combineStep acc p = combine_spec acc p.
Proof. unfold combineStep, combine_spec. destruct (p_operation p); reflexivity. Qed.

Lemma skipn_nth_error {A : Type} (l : list A) (i : nat) (a : A) :
  nth_error l i = Some a -> skipn i l = a :: skipn (S i) l.
Proof.
  revert i. induction l as [|b l IH]; intros [|i] H; simpl in *; try discriminate.
  - congruence.
  - apply IH. exact H.
Qed.

(** With enough fuel the loop from index [i] is the left fold over the
    elements from [i] on. *)
Lemma combineLoop_fold (fuel : nat) (l : list Primitive) (i : nat) (merged : CSG) :
  (List.length l - i <= fuel)%nat ->
  combineLoop fuel l i merged = fold_left combine_spec (skipn i l) merged.
Proof.
  revert i merged. induction fuel as [|fuel IH]; intros i merged Hf.
  - simpl. rewrite skipn_all2 by lia. reflexivity.
  - simpl. destruct (Nat.ltb_spec i (List.length l)) as [Hi|Hi].
    + destruct (nth_error l i) as [p|] eqn:Ep.
      * rewrite (skipn_nth_error _ _ Ep). simpl.
        rewrite IH by lia. rewrite combineStep_spec. reflexivity.
      * apply nth_error_None in Ep. lia.
    + rewrite skipn_all2 by lia. reflexivity.
Qed.

(** C2: [buildCombinedMesh] returns no mesh exactly for the empty list;
    otherwise the mesh of primitive 0 is the accumulator whatever its
    operation, and each later primitive, in list order, is united with the
    accumulator when its operation is add and cut from it when its operation
    is subtract. *)
Theorem buildCombinedMesh_folds (l : list Primitive) :
  (buildCombinedMesh l = None <-> l = [])
  /\ buildCombinedMesh l
     = option_map (fun c => mkCombined (toMesh c solidMaterial) true true)
         (foldPrimitives_spec l)
  /\ (forall first rest op,
         buildCombinedMesh
           (mkPrimitive (p_id first) (p_name first) (p_type first) op
              (p_position first) (p_dimensions first) :: rest)
         = buildCombinedMesh (first :: rest)).
Proof.
  assert (Hfold : forall first rest,
             buildCombinedMesh (first :: rest)
             = Some (mkCombined
                       (toMesh (fold_left combine_spec rest (fromMesh (primitiveToMesh first)))
                          solidMaterial) true true)).
  { intros first rest. unfold buildCombinedMesh.
    cbn [nth_error List.length Nat.eqb].
    rewrite combineLoop_fold by (simpl; lia). reflexivity. }
  split; [|split].
  - destruct l as [|first rest]; [split; reflexivity|].
    rewrite Hfold. split; discriminate.
  - destruct l as [|first rest]; [reflexivity|].
    rewrite Hfold. reflexivity.
  - intros first rest op. rewrite !Hfold. reflexivity.
Qed.

End SolidBuilder.

(** The default store, folded symbolically: the column is united with the
    plate, then the scoop is cut. *)
Example buildCombinedMesh_default :
  option_map (fun m => fst (rendered m)) (buildCombinedMesh DEFAULT_PRIMITIVES)
  = match DEFAULT_PRIMITIVES with
    | [a; b; c] =>
        Some (TSubtract (TUnion (TLeaf (primitiveToMesh a)) (TLeaf (primitiveToMesh b)))
                (TLeaf (primitiveToMesh c)))
    | _ => None
    end.
Proof. reflexivity. Qed.

(** ** Transform session *)

Lemma step_keeps_primitives (e : Event) (ws : Workspace) :
  isRelease e = false ->
  primitives (store (step e ws)) = primitives (store ws).
Proof.
  destruct e; simpl; intros H; try reflexivity; try discriminate.
  - unfold onMouseDown. destruct (selectedPrimitive (store ws)); [|reflexivity].
    destruct (gizmoMode (handleMode ws)); reflexivity.
  - destruct (selectedPrimitive (store ws)) as [p|]; [|reflexivity].
    destruct (meshRef ws (p_id p)); reflexivity.
Qed.

Lemma run_keeps_primitives (events : list Event) (ws : Workspace) :
  forallb (fun e => negb (isRelease e)) events = true ->
  primitives (store (run events ws)) = primitives (store ws).
Proof.
  revert ws. induction events as [|e events IH]; intros ws H; [reflexivity|].
  simpl in H. apply andb_true_iff in H. destruct H as [He Hrest].
  unfold run in *. simpl. rewrite IH by exact Hrest.
  apply step_keeps_primitives. apply negb_true_iff. exact He.
Qed.

Lemma mouseUpCalls_at_most_one (ws : Workspace) (primitive : Primitive) :
  (List.length (mouseUpCalls ws primitive) <= 1)%nat.
Proof.
  unfold mouseUpCalls, finalizeResize, finalizeTranslate.
  destruct (gizmoMode (handleMode ws));
    destruct (meshRef ws (p_id primitive));
    destruct (sessionRef ws (p_id primitive));
    try destruct (computeScaledDimensions _ _ _); simpl; lia.
Qed.

Lemma onMouseUp_store (ws : Workspace) :
  store (step GizmoMouseUp ws)
  = match selectedPrimitive (store ws) with
    | Some primitive => applyCalls (mouseUpCalls ws primitive) (store ws)
    | None => store ws
    end.
Proof.
  simpl. unfold onMouseUp, mouseUpCalls.
  destruct (selectedPrimitive (store ws)) as [p|]; [|reflexivity].
  destruct (finalizeResize _ _ _ _). reflexivity.
Qed.

(** C8: no event of a transform session other than the release changes the
    primitive list: after any sequence of mode changes, gizmo pointer-downs,
    drags of the proxy, selections and deselections, every primitive of the
    store is as it was; the release calls [onTransform] at most once, and
    the store it leaves is the old one with those calls applied. *)
Theorem session_writes_only_on_release :
  (forall events ws,
      forallb (fun e => negb (isRelease e)) events = true ->
      primitives (store (run events ws)) = primitives (store ws))
  /\ (forall ws primitive, (List.length (mouseUpCalls ws primitive) <= 1)%nat)
  /\ (forall ws,
      store (step GizmoMouseUp ws)
      = match selectedPrimitive (store ws) with
        | Some primitive => applyCalls (mouseUpCalls ws primitive) (store ws)
        | None => store ws
        end).
Proof.
  split; [exact run_keeps_primitives|].
  split; [exact mouseUpCalls_at_most_one | exact onMouseUp_store].
Qed.

(** ** The dimension invariant *)

Lemma isPositive_Fin (q : Q) : isPositive (Some (Fin q)) = true <-> 0 < q.
Proof.
  simpl. rewrite negb_true_iff. split.
  - intros H. destruct (Qlt_le_dec 0 q) as [L|L]; [exact L|].
    apply Qle_bool_iff in L. congruence.
  - intros H. apply not_true_is_false. intros F. apply Qle_bool_iff in F. lra.
Qed.

Lemma fieldFromFloor_positive (f : jsval) :
  fieldFromFloor f -> isPositiveOrInfinite f = true.
Proof.
  destruct f as [[q| | |]|]; simpl; try contradiction; [|reflexivity].
  intros H. rewrite negb_true_iff. apply Qle_bool_false. lra.
Qed.

Lemma isPositive_weaken (f : jsval) :
  isPositive f = true -> isPositiveOrInfinite f = true.
Proof. destruct f as [[q| | |]|]; simpl; intros H; try discriminate; exact H. Qed.

Lemma resolved_positive (type : ShapeType) (n : Dimensions) :
  resolvedFromFloor type n -> dimensionsPositive type n = true.
Proof.
  destruct type; simpl; intros H; decompose [and] H;
    repeat (apply andb_true_iff; split); apply fieldFromFloor_positive; assumption.
Qed.

Lemma setDim_valid (t : ShapeType) (key : DimKey) (v : jsval) (d : Dimensions) :
  isPositive v = true ->
  dimensionsValid t d = true -> dimensionsValid t (setDim key v d) = true.
Proof.
  intros Hv. destruct t, key; simpl; intros H;
    repeat (apply andb_true_iff in H; destruct H as [H ?]);
    repeat (apply andb_true_iff; split); assumption.
Qed.

Lemma setDim_positive (t : ShapeType) (key : DimKey) (v : jsval) (d : Dimensions) :
  isPositiveOrInfinite v = true ->
  dimensionsPositive t d = true -> dimensionsPositive t (setDim key v d) = true.
Proof.
  intros Hv. destruct t, key; simpl; intros H;
    repeat (apply andb_true_iff in H; destruct H as [H ?]);
    repeat (apply andb_true_iff; split); assumption.
Qed.

(** A property of every primitive of the list is kept by a patch whose
    updater establishes it on the primitives of the patched id. *)
Lemma forallb_patch (P : Primitive -> bool) (id : string) (f : Primitive -> Primitive)
  (st : Store) :
  forallb P (primitives st) = true ->
  (forall item, In item (primitives st) -> p_id item = id -> P (f item) = true) ->
  forallb P (primitives (patchPrimitive id (UpdaterFn f) st)) = true.
Proof.
  unfold patchPrimitive, setPrimitives. cbn [primitives].
  intros Hst Hf. apply forallb_forall. intros x Hx.
  apply in_map_iff in Hx. destruct Hx as (item & Ex & Hitem).
  rewrite forallb_forall in Hst.
  destruct (String.eqb_spec (p_id item) id) as [E|E]; simpl in Ex; subst x.
  - apply Hf; assumption.
  - apply Hst. exact Hitem.
Qed.

Lemma storeValid_patch (id : string) (f : Primitive -> Primitive) (st : Store) :
  storeValid st = true ->
  (forall item, In item (primitives st) -> p_id item = id ->
                primitiveValid (f item) = true) ->
  storeValid (patchPrimitive id (UpdaterFn f) st) = true.
Proof. unfold storeValid. apply forallb_patch. Qed.

Lemma unique_by_id (l : list Primitive) (a b : Primitive) :
  NoDup (ids l) -> In a l -> In b l -> p_id a = p_id b -> a = b.
Proof.
  induction l as [|c l IH]; simpl; intros Hnd Ha Hb E; [contradiction|].
  apply NoDup_cons_iff in Hnd. destruct Hnd as [Hc Hnd].
  destruct Ha as [Ha|Ha], Hb as [Hb|Hb].
  - congruence.
  - subst c. exfalso. apply Hc. rewrite E. unfold ids. apply in_map. exact Hb.
  - subst c. exfalso. apply Hc. rewrite <- E. unfold ids. apply in_map. exact Ha.
  - apply IH; assumption.
Qed.

Lemma max_floor_positive (v : number) :
  isFinite v = true -> isPositive (Some (JsNum.max (Fin (1 # 10)) v)) = true.
Proof.
  destruct v as [q| | |]; simpl; intros H; try discriminate.
  destruct (Qle_bool (1 # 10) q) eqn:E.
  - apply isPositive_Fin. apply Qle_bool_iff in E. lra.
  - apply isPositive_Fin. lra.
Qed.

Lemma isPositive_finite (f : jsval) : isPositive f = true -> isFinite (toNumber f) = true.
Proof. destruct f as [[q| | |]|]; simpl; intros H; try discriminate; reflexivity. Qed.

(** [parseNumber] returns a finite number when its fallback is finite or
    [undefined]. *)
Lemma parseNumber_finite (parsed : number) (fallback : jsval) :
  (forall f, fallback = Some f -> isFinite f = true) ->
  isFinite (parseNumber parsed fallback) = true.
Proof.
  unfold parseNumber. destruct (isFinite parsed) eqn:E; intros H; [exact E|].
  destruct fallback as [f|]; [apply H; reflexivity | reflexivity].
Qed.

(** The clamped inputs of the inspector (sphere radius, cylinder radius and
    height) keep every dimension of a valid store finite and positive. *)
Lemma inspector_clamped_inputs_valid (primitive : Primitive) (key : DimKey)
  (parsed : number) (st : Store) :
  storeValid st = true ->
  primitiveValid primitive = true ->
  p_type primitive <> box ->
  storeValid (onDimensionInput primitive key parsed st) = true.
Proof.
  intros Hst Hp Hbox. unfold onDimensionInput.
  assert (Hgo : isPositive (getDim key (p_dimensions primitive)) = true ->
                storeValid
                  (handleDimensionsChange primitive key
                     (Some (JsNum.max (Fin (1 # 10))
                        (parseNumber parsed (getDim key (p_dimensions primitive)))))
                     st) = true).
  { intros Hk. apply storeValid_patch; [exact Hst|].
    intros item Hitem _. unfold primitiveValid. cbn [withDimensions p_type p_dimensions].
    apply setDim_valid.
    - apply max_floor_positive, parseNumber_finite. intros f Ef.
      rewrite Ef in Hk. exact (isPositive_finite _ Hk).
    - unfold storeValid in Hst. rewrite forallb_forall in Hst. exact (Hst item Hitem). }
  unfold primitiveValid in Hp.
  destruct (p_type primitive) eqn:Et, key; try exact Hst; try congruence;
    apply Hgo; simpl in Hp;
    repeat (apply andb_true_iff in Hp; destruct Hp as [Hp ?]); assumption.
Qed.

Lemma max_Fin_lower (lo q : Q) :
  exists c, JsNum.max (Fin lo) (Fin q) = Fin c /\ lo <= c.
Proof.
  simpl. destruct (Qle_bool lo q) eqn:E.
  - exists q. split; [reflexivity|]. apply Qle_bool_iff. exact E.
  - exists lo. split; [reflexivity | lra].
Qed.

Lemma parseNumber_zero_finite (v : number) :
  exists q, parseNumber v (Some (Fin 0)) = Fin q.
Proof. destruct v as [q| | |]; eexists; reflexivity. Qed.

(** [clampSize] with the floor of [n] hundredths returns at least [n]
    hundredths, or [Infinity] when the rounding overflows. *)
Lemma clampSizeWith_from (value : number) (lo : Q) (n : Z) :
  (0 <= n)%Z -> lo == inject_Z n / 100 ->
  hundredthsFrom n (clampSizeWith value (Fin lo)).
Proof.
  intros Hn Elo. unfold clampSizeWith.
  destruct (parseNumber_zero_finite value) as [q ->].
  destruct (max_Fin_lower lo q) as (c & -> & Hc).
  apply roundValue_from; [exact Hn|]. rewrite <- Elo. exact Hc.
Qed.

Lemma clampSize_from (value : number) : hundredthsFrom 10 (clampSize value).
Proof. apply clampSizeWith_from; [lia | reflexivity]. Qed.

Lemma half_from (d : number) :
  hundredthsFrom 20 d -> fieldFromFloor (Some (JsNum.div d (Fin 2))).
Proof.
  intros [->|(k & Hk & ->)]; [exact I|].
  rewrite hundredths_Fin. simpl.
  rewrite Zle_Qle in Hk. change (inject_Z 20) with 20 in Hk.
  set (r := inject_Z k / 100) in *.
  assert (E : r / 2 == r * (1 # 2)) by (unfold Qdiv; reflexivity).
  assert (Er : r == inject_Z k * (1 # 100)) by (unfold r; apply Qdiv_100).
  rewrite E. lra.
Qed.

Lemma storeValid_In (st : Store) (p : Primitive) :
  storeValid st = true -> In p (primitives st) -> primitiveValid p = true.
Proof. unfold storeValid. rewrite forallb_forall. auto. Qed.

Lemma storePositive_In (st : Store) (p : Primitive) :
  storePositive st = true -> In p (primitives st) ->
  dimensionsPositive (p_type p) (p_dimensions p) = true.
Proof.
  unfold storePositive. rewrite forallb_forall. intros H Hin. exact (H p Hin).
Qed.

Lemma storeValid_positive (st : Store) : storeValid st = true -> storePositive st = true.
Proof.
  unfold storeValid, storePositive. rewrite !forallb_forall. intros H p Hp.
  specialize (H p Hp). unfold primitiveValid in H.
  destruct (p_type p); simpl in *;
    repeat (apply andb_true_iff in H; destruct H as [H ?]);
    repeat (apply andb_true_iff; split); apply isPositive_weaken; assumption.
Qed.

(** Replacing, by id, the dimensions of a primitive of a store of distinct
    ids by dimensions above zero for its type keeps every dimension above
    zero. *)
Lemma storePositive_transform_dimensions (primitive : Primitive) (d : Dimensions)
  (st : Store) :
  storePositive st = true ->
  NoDup (ids (primitives st)) ->
  In primitive (primitives st) ->
  dimensionsPositive (p_type primitive) d = true ->
  storePositive (handleTransformPrimitive (p_id primitive) (mkPayload None (Some d)) st) = true.
Proof.
  intros Hst Hnd Hin Hd. unfold handleTransformPrimitive, storePositive.
  apply forallb_patch; [exact Hst|].
  intros item Hitem E.
  rewrite (unique_by_id _ item primitive Hnd Hitem Hin E). exact Hd.
Qed.

(** A commit of a dimension arrow keeps every dimension a number above
    zero, finite or [Infinity]. *)
Lemma arrow_commit_positive (primitive : Primitive) (key : DimKey) (parsed : number)
  (st : Store) :
  storePositive st = true ->
  NoDup (ids (primitives st)) ->
  In primitive (primitives st) ->
  storePositive (onArrowCommit primitive key parsed st) = true.
Proof.
  intros Hst Hnd Hin.
  pose proof (storePositive_In _ _ Hst Hin) as Hp.
  unfold onArrowCommit, updateDimensions.
  destruct (p_type primitive) eqn:Et, key; try exact Hst;
    apply storePositive_transform_dimensions; try assumption;
    rewrite Et; apply setDim_positive; try exact Hp;
    apply fieldFromFloor_positive;
    first [ apply (@hundredthsFrom_floor 10); [lia | apply clampSize_from]
          | apply half_from, clampSizeWith_from; [lia | reflexivity] ].
Qed.

(** A change of type keeps every dimension finite and positive. *)
Lemma type_select_valid (primitive : Primitive) (nextType : ShapeType) (st : Store) :
  storeValid st = true -> storeValid (onTypeSelect primitive nextType st) = true.
Proof.
  intros Hst. apply storeValid_patch; [exact Hst|].
  intros item _ _. destruct nextType; reflexivity.
Qed.

(** A new primitive keeps every dimension finite and positive. *)
Lemma addPrimitive_valid (suffix : string) (rnd : Q) (type : ShapeType) (st : Store) :
  storeValid st = true -> storeValid (addPrimitive suffix rnd type st) = true.
Proof.
  unfold storeValid, addPrimitive, setSelectedId, setPrimitives.
  cbn [primitives]. intros Hst. rewrite forallb_app, Hst.
  destruct type; reflexivity.
Qed.

Lemma applyCalls_translate_valid (id : string) (pos : Vec3) (st : Store) :
  storeValid st = true ->
  storeValid (handleTransformPrimitive id (mkPayload (Some pos) None) st) = true.
Proof.
  intros Hst. unfold handleTransformPrimitive.
  apply storeValid_patch; [exact Hst|].
  intros item Hitem _. exact (storeValid_In _ _ Hst Hitem).
Qed.

Lemma applyCalls_translate_positive (id : string) (pos : Vec3) (st : Store) :
  storePositive st = true ->
  storePositive (handleTransformPrimitive id (mkPayload (Some pos) None) st) = true.
Proof.
  intros Hst. unfold handleTransformPrimitive, storePositive.
  apply forallb_patch; [exact Hst|].
  intros item Hitem _. exact (storePositive_In _ _ Hst Hitem).
Qed.

(** The release of a transform session, in either mode, keeps every
    dimension a number above zero, finite or [Infinity]. *)
Lemma release_positive (ws : Workspace) :
  storePositive (store ws) = true ->
  NoDup (ids (primitives (store ws))) ->
  storePositive (store (step GizmoMouseUp ws)) = true.
Proof.
  intros Hst Hnd. rewrite onMouseUp_store.
  destruct (selectedPrimitive (store ws)) as [primitive|] eqn:Hsel; [|exact Hst].
  assert (Hin : In primitive (primitives (store ws))).
  { unfold selectedPrimitive in Hsel. destruct (selectedId (store ws)); [|discriminate].
    apply find_some in Hsel. tauto. }
  unfold mouseUpCalls, finalizeResize, finalizeTranslate, applyCalls.
  destruct (gizmoMode (handleMode ws));
    destruct (meshRef ws (p_id primitive)) as [m|];
    destruct (sessionRef ws (p_id primitive)) as [s|]; try exact Hst.
  - destruct (computeScaledDimensions_floor (p_type primitive) (startDimensions s)
                (proxy_scale m)) as (n & -> & Hn).
    cbn [app fold_left fst snd].
    apply storePositive_transform_dimensions; try assumption.
    apply resolved_positive. exact Hn.
  - cbn [app fold_left fst snd]. apply applyCalls_translate_positive. exact Hst.
  - cbn [app fold_left fst snd]. apply applyCalls_translate_positive. exact Hst.
Qed.

(** The box inputs of the inspector store the parsed number as it is. *)
Lemma inspector_box_input_unclamped (primitive : Primitive) (key : DimKey) (q : Q)
  (st : Store) :
  p_type primitive = box -> key <> kRadius ->
  onDimensionInput primitive key (Fin q) st
  = handleDimensionsChange primitive key (Some (Fin q)) st.
Proof.
  intros Et Hk. unfold onDimensionInput. rewrite Et.
  destruct key; try reflexivity. congruence.
Qed.

(** C1, at the input that breaks it: in the initial store, whose dimensions
    are all finite and positive, typing -5 into the Width input of the
    inspector of the selected box stores the width -5; the store no longer
    has every dimension positive, and nothing was clamped to 1/10. *)
Theorem inspector_box_width_stores_negative :
  selectedPrimitive initialStore = Some basePlate
  /\ storeValid initialStore = true
  /\ option_map (fun p => width (p_dimensions p))
       (selectedPrimitive (onDimensionInput basePlate kWidth (Fin (-5 # 1)) initialStore))
     = Some (Some (Fin (-5 # 1)))
  /\ storeValid (onDimensionInput basePlate kWidth (Fin (-5 # 1)) initialStore) = false.
Proof. repeat split; reflexivity. Qed.

(** The same input on the radius of a sphere is clamped to 1/10. *)
Example inspector_sphere_radius_clamped :
  option_map (fun p => radius (p_dimensions p))
    (find (fun p => (p_id p =? "prim-3")%string)
       (primitives
          (onDimensionInput (mkPrimitive "prim-3" "Corner Scoop" sphere subtract
                               (mkVec3 (Fin (5 # 2)) (Fin (5 # 2)) (Fin (3 # 2)))
                               (sphereDims (Fin (14 # 10))))
             kRadius (Fin (-5 # 1)) initialStore)))
  = Some (Some (Fin (1 # 10))).
Proof. reflexivity. Qed.

(** ** Instances on the sample states *)


Lemma removePrimitive_deletes_witness :
  exists l1 x l2,
    primitives storeXYZ = l1 ++ x :: l2
    /\ p_id x = "Y"
    /\ primitives (removePrimitive "Y" storeXYZ) = l1 ++ l2
    /\ (l1 ++ l2 = [] -> selectedId (removePrimitive "Y" storeXYZ) = None)
    /\ (selectedId storeXYZ = Some "Y" ->
        forall front lst, l1 ++ l2 = front ++ [lst] ->
                          selectedId (removePrimitive "Y" storeXYZ) = Some (p_id lst)).
Proof.
  apply (@removePrimitive_deletes "Y" storeXYZ).
  - simpl. right. left. reflexivity.
  - simpl. repeat constructor; simpl; intuition discriminate.
Defined.

(** Deletion re-selection (spec section 8). *)
Example remove_selected_Y :
  removePrimitive "Y" storeXYZ = mkStore [unitBox "X"; unitBox "Z"] (Some "Z").
Proof. reflexivity. Qed.

Lemma removePrimitive_reselects_witness :
  selectedId (removePrimitive "Y" (mkStore (primitives storeXYZ) None)) = Some "Z".
Proof.
  apply (proj1 (proj2 (@removePrimitive_reselects "Y" (mkStore (primitives storeXYZ) None)))
           [unitBox "X"] (unitBox "Z")).
  - reflexivity.
  - left. reflexivity.
Defined.

Lemma mutators_noop_and_swap_witness :
  patchPrimitive "W" (UpdaterFn (fun p => withPosition p (mkVec3 NaN NaN NaN))) storeXYZ
  = storeXYZ
  /\ removePrimitive "W" storeXYZ = storeXYZ
  /\ reorderPrimitive "W" 1 storeXYZ = storeXYZ
  /\ reorderPrimitive "Z" 1 storeXYZ = storeXYZ
  /\ reorderPrimitive "X" 1 storeXYZ
     = mkStore [unitBox "Y"; unitBox "X"; unitBox "Z"] (Some "Y")
  /\ reorderPrimitive "Z" (-1) storeXYZ
     = mkStore [unitBox "X"; unitBox "Z"; unitBox "Y"] (Some "Y").
Proof.
  destruct mutators_noop_and_swap
    as (Hpatch & Hremove & Hreorder & _ & Hlast & Hdown & Hup & _).
  assert (Habs : ~ In "W" (ids (primitives storeXYZ))).
  { simpl. intuition discriminate. }
  split; [exact (Hpatch _ _ _ Habs)|].
  split.
  { apply (proj1 (proj2 (Hremove _ _ Habs))).
    exists "Y". split; [reflexivity|]. simpl. right. left. reflexivity. }
  split; [exact (Hreorder _ _ _ Habs)|].
  split.
  { apply (Hlast [unitBox "X"; unitBox "Y"] (unitBox "Z") (Some "Y")).
    simpl. intuition discriminate. }
  split.
  { apply (Hdown [] (unitBox "X") (unitBox "Y") [unitBox "Z"] (Some "Y")).
    simpl. intros F. exact F. }
  apply (Hup [unitBox "X"] (unitBox "Y") (unitBox "Z") [] (Some "Y")).
  - simpl. intuition discriminate.
  - simpl. discriminate.
Defined.

Lemma session_writes_only_on_release_witness :
  primitives (store (run discardedResize draggedWorkspace))
  = primitives (store draggedWorkspace).
Proof.
  exact (proj1 session_writes_only_on_release discardedResize draggedWorkspace eq_refl).
Defined.

(** Commit gating (spec section 8): the discarded resize session leaves the
    selection on [prim-2], the snapshot behind, and the list as it was. *)
Example discarded_resize_state :
  selectedId (store (run discardedResize draggedWorkspace)) = Some "prim-2"
  /\ primitives (store (run discardedResize draggedWorkspace)) = DEFAULT_PRIMITIVES
  /\ sessionRef (run discardedResize draggedWorkspace) "prim-1"
     = Some (mkSession (p_dimensions basePlate)).
Proof. repeat split; reflexivity. Qed.

(** The change of selection mounts the mesh of [prim-1] anew: the stretched
    proxy is gone, the new one has the stored position and the scale one. *)
Example discarded_resize_proxy :
  meshRef (run discardedResize draggedWorkspace) "prim-1"
  = Some (mkProxy (positionToWorld (p_position basePlate))
            (mkVec3 (Fin 1) (Fin 1) (Fin 1))).
Proof. reflexivity. Qed.

(** A resize released without a drag on a box whose width was typed as
    10^307: the rounding of the resolver overflows and the width stored is
    [Infinity]. *)
Example resize_commit_stores_infinity :
  option_map (fun p => width (p_dimensions p))
    (selectedPrimitive
       (store
          (run [GizmoMouseDown; GizmoMouseUp]
             (mkWorkspace
                (onDimensionInput basePlate kWidth (Fin (inject_Z (10 ^ 307))) initialStore)
                resize (fun _ => None)
                (fun _ => Some (mkProxy (positionToWorld (p_position basePlate))
                                  (mkVec3 (Fin 1) (Fin 1) (Fin 1))))))))
  = Some (Some PosInf).
Proof. vm_compute. reflexivity. Qed.

(** The proxy released at (1.234, 2.5, -0.706) in engine space commits the
    user-space position (1.23, -0.71, 2.5). *)
Example translate_commit_position :
  option_map p_position (selectedPrimitive (store (step GizmoMouseUp draggedWorkspace)))
  = Some (mkVec3 (Fin (123 # 100)) (Fin (-71 # 100)) (Fin (250 # 100))).
Proof. vm_compute. reflexivity. Qed.

(** * Further properties of the store *)

Lemma filter_twice (id : string) (l : list Primitive) :
  filter (fun item => negb (p_id item =? id)%string)
    (filter (fun item => negb (p_id item =? id)%string) l)
  = filter (fun item => negb (p_id item =? id)%string) l.
Proof.
  induction l as [|a l IH]; simpl; [reflexivity|].
  destruct (negb (p_id a =? id)%string) eqn:E; simpl; [rewrite E, IH|]; auto.
Qed.

Lemma filter_excludes (id : string) (l : list Primitive) :
  ~ In id (ids (filter (fun item => negb (p_id item =? id)%string) l)).
Proof.
  unfold ids. intros H. apply in_map_iff in H. destruct H as (x & Ex & Hx).
  apply filter_In in Hx. destruct Hx as [_ Hx].
  apply negb_true_iff, String.eqb_neq in Hx. exact (Hx Ex).
Qed.

(** After a removal the list is empty and nothing is selected, or the
    selection names a primitive of the list. *)
Lemma removePrimitive_selected_after (id : string) (st : Store) :
  (primitives (removePrimitive id st) = [] /\ selectedId (removePrimitive id st) = None)
  \/ (exists s, selectedId (removePrimitive id st) = Some s
                /\ In s (ids (primitives (removePrimitive id st)))).
Proof.
  pose proof (removePrimitive_selection id st) as Hs. cbv zeta in Hs.
  remember (primitives (removePrimitive id st)) as filtered eqn:Ef.
  destruct filtered as [|a l].
  - left. split; [reflexivity | exact Hs].
  - right.
    assert (Hne : a :: l <> []) by discriminate.
    destruct (lastId_defined Hne) as (i & Hi & Hin).
    destruct (existsb (fun item => optString_eqb (Some (p_id item)) (selectedId st))
                (a :: l)) eqn:Hex.
    + destruct (optString_eqb (selectedId st) (Some id)) eqn:He; cbn [orb negb] in Hs.
      * exists i. split; [congruence | exact Hin].
      * apply existsb_selected in Hex. destruct Hex as (s & E & Hin').
        exists s. split; [congruence | exact Hin'].
    + rewrite orb_true_r in Hs.
      exists i. split; [congruence | exact Hin].
Qed.

(** X1: removing the same id twice is removing it once: the second call
    changes neither the list nor the selection. *)
Theorem removePrimitive_idempotent (id : string) (st : Store) :
  removePrimitive id (removePrimitive id st) = removePrimitive id st.
Proof.
  pose proof (removePrimitive_selected_after id st) as Hafter.
  pose proof (filter_excludes id (primitives st)) as Hex.
  pose proof (removePrimitive_selection id (removePrimitive id st)) as Hs. cbv zeta in Hs.
  assert (Hl : primitives (removePrimitive id (removePrimitive id st))
               = primitives (removePrimitive id st)).
  { unfold removePrimitive. cbn [primitives]. apply filter_twice. }
  assert (Hex' : ~ In id (ids (primitives (removePrimitive id st)))) by exact Hex.
  rewrite Hl in Hs.
  assert (Hsel : selectedId (removePrimitive id (removePrimitive id st))
                 = selectedId (removePrimitive id st)).
  { destruct Hafter as [[En Es]|(s & Es & Hin)].
    - rewrite Hs, En, Es. reflexivity.
    - rewrite Hs.
      destruct (primitives (removePrimitive id st)) as [|a l] eqn:Ef; [destruct Hin|].
      rewrite <- Ef in *.
      assert (H1 : optString_eqb (selectedId (removePrimitive id st)) (Some id) = false).
      { apply not_true_is_false. intros F. apply optString_eqb_eq in F.
        rewrite Es in F. injection F as ->. exact (Hex' Hin). }
      assert (H2 : existsb
                     (fun item => optString_eqb (Some (p_id item))
                                    (selectedId (removePrimitive id st)))
                     (primitives (removePrimitive id st)) = true).
      { apply existsb_selected. exists s. split; assumption. }
      rewrite H1, H2. reflexivity. }
  destruct (removePrimitive id (removePrimitive id st)) as [l2 s2].
  destruct (removePrimitive id st) as [l1 s1].
  cbn [primitives selectedId] in *. congruence.
Qed.

(** X2: whatever the store and the id, after [removePrimitive] the id is
    gone from the list, and the selection is none exactly when the list is
    empty and otherwise names a primitive of the list. *)
Theorem removePrimitive_leaves_listed_selection (id : string) (st : Store) :
  ~ In id (ids (primitives (removePrimitive id st)))
  /\ selectionListed (removePrimitive id st)
  /\ (selectedId (removePrimitive id st) = None
      <-> primitives (removePrimitive id st) = []).
Proof.
  split; [apply filter_excludes|].
  destruct (removePrimitive_selected_after id st) as [[En Es]|(s & Es & Hin)].
  - split.
    + unfold selectionListed. rewrite Es. exact I.
    + split; intros _; assumption.
  - split.
    + unfold selectionListed. rewrite Es. exact Hin.
    + split; intros H.
      * congruence.
      * rewrite H in Hin. destruct Hin.
Qed.

Lemma spliceIn_permutation {A : Type} (t : nat) (m : A) (l : list A) :
  Permutation (m :: l) (spliceIn t m l).
Proof.
  unfold spliceIn. rewrite <- (firstn_skipn t l) at 1. apply Permutation_middle.
Qed.

Lemma spliceOut_permutation {A : Type} (i : nat) (m : A) (l : list A) :
  nth_error l i = Some m ->
  Permutation l (m :: (firstn i l ++ skipn (S i) l)).
Proof.
  intros H. rewrite <- (firstn_skipn i l) at 1.
  rewrite (skipn_nth_error _ _ H). symmetry. apply Permutation_middle.
Qed.

Lemma reorderPrimitive_permutation (id : string) (direction : Z) (st : Store) :
  Permutation (primitives st) (primitives (reorderPrimitive id direction st)).
Proof.
  unfold reorderPrimitive, setPrimitives. cbn [primitives].
  destruct (_ =? -1)%Z; [reflexivity|].
  destruct (_ || _); [reflexivity|].
  unfold spliceOut.
  destruct (nth_error (primitives st) _) as [moved|] eqn:E.
  - etransitivity; [apply (spliceOut_permutation _ _ E)|]. apply spliceIn_permutation.
  - apply nth_error_None in E.
    rewrite firstn_all2 by exact E. rewrite skipn_all2 by lia.
    rewrite app_nil_r. reflexivity.
Qed.

(** X3: whatever the id and the direction, [reorderPrimitive] only permutes
    the list: no primitive is lost, added or changed, the length is kept,
    and the selection is not touched. *)
Theorem reorderPrimitive_permutes (id : string) (direction : Z) (st : Store) :
  Permutation (primitives st) (primitives (reorderPrimitive id direction st))
  /\ List.length (primitives (reorderPrimitive id direction st))
     = List.length (primitives st)
  /\ selectedId (reorderPrimitive id direction st) = selectedId st.
Proof.
  pose proof (reorderPrimitive_permutation id direction st) as HP.
  split; [exact HP|]. split; [|reflexivity].
  symmetry. apply Permutation_length. exact HP.
Qed.

Lemma reorder_later (l1 l2 : list Primitive) (a b : Primitive) (sel : option string) :
  ~ In (p_id a) (ids l1) ->
  reorderPrimitive (p_id a) 1 (mkStore (l1 ++ a :: b :: l2) sel)
  = mkStore (l1 ++ b :: a :: l2) sel.
Proof.
  intros Hn. rewrite reorderPrimitive_moves; [| exact Hn |].
  - f_equal.
    replace (Z.to_nat (Z.of_nat (List.length l1) + 1)) with (List.length (l1 ++ [b])).
    + change (l1 ++ b :: l2) with (l1 ++ [b] ++ l2). rewrite app_assoc.
      rewrite spliceIn_at. rewrite <- app_assoc. reflexivity.
    + rewrite length_app. simpl. lia.
  - rewrite length_app. simpl. lia.
Qed.

Lemma reorder_earlier (l1 l2 : list Primitive) (a b : Primitive) (sel : option string) :
  ~ In (p_id a) (ids l1) -> p_id b <> p_id a ->
  reorderPrimitive (p_id a) (-1) (mkStore (l1 ++ b :: a :: l2) sel)
  = mkStore (l1 ++ a :: b :: l2) sel.
Proof.
  intros Hn Hne.
  change (l1 ++ b :: a :: l2) with (l1 ++ [b] ++ a :: l2). rewrite app_assoc.
  rewrite reorderPrimitive_moves.
  - f_equal.
    replace (Z.to_nat (Z.of_nat (List.length (l1 ++ [b])) + -1)) with (List.length l1).
    + rewrite <- app_assoc. apply spliceIn_at.
    + rewrite length_app. simpl. lia.
  - rewrite ids_app. intros F. apply in_app_or in F. destruct F as [F|F].
    + exact (Hn F).
    + simpl in F. destruct F as [F|[]]. exact (Hne F).
  - rewrite !length_app. simpl. lia.
Qed.

(** X4: moving a primitive one place later and then one place earlier, or
    one place earlier and then one place later, gives back the store, when
    its id is carried by no primitive before it nor by the neighbour it is
    exchanged with. *)
Theorem reorderPrimitive_round_trip (l1 l2 : list Primitive) (a b : Primitive)
  (sel : option string) :
  ~ In (p_id a) (ids l1) -> p_id b <> p_id a ->
  reorderPrimitive (p_id a) (-1)
    (reorderPrimitive (p_id a) 1 (mkStore (l1 ++ a :: b :: l2) sel))
  = mkStore (l1 ++ a :: b :: l2) sel
  /\ reorderPrimitive (p_id a) 1
       (reorderPrimitive (p_id a) (-1) (mkStore (l1 ++ b :: a :: l2) sel))
     = mkStore (l1 ++ b :: a :: l2) sel.
Proof.
  intros Hn Hne. split.
  - rewrite reorder_later by exact Hn. apply reorder_earlier; assumption.
  - rewrite reorder_earlier by assumption. apply reorder_later. exact Hn.
Qed.

Lemma ids_filter_nodup (id : string) (l : list Primitive) :
  NoDup (ids l) -> NoDup (ids (filter (fun item => negb (p_id item =? id)%string) l)).
Proof.
  induction l as [|a l IH]; simpl; intros H; [constructor|].
  apply NoDup_cons_iff in H. destruct H as [Ha Hl].
  destruct (negb (p_id a =? id)%string); [|apply IH; exact Hl].
  simpl. constructor; [|apply IH; exact Hl].
  intros F. apply Ha. unfold ids in *. apply in_map_iff in F.
  destruct F as (x & Ex & Hx). apply filter_In in Hx.
  apply in_map_iff. exists x. tauto.
Qed.

Lemma patchPrimitive_ids (id : string) (f : Primitive -> Primitive) (st : Store) :
  (forall p, p_id (f p) = p_id p) ->
  ids (primitives (patchPrimitive id (UpdaterFn f) st)) = ids (primitives st).
Proof.
  intros Hf. unfold patchPrimitive, setPrimitives, ids. cbn [primitives].
  rewrite map_map. apply map_ext. intros item.
  destruct (negb (p_id item =? id)%string); [reflexivity | apply Hf].
Qed.

(** X5: the mutators keep the ids of the list distinct: a removal and a
    reordering always, a patch whose updater keeps the id of the primitive
    it is given, and an addition when the drawn id is not yet in the list. *)
Theorem mutators_keep_ids_distinct (st : Store) :
  NoDup (ids (primitives st)) ->
  (forall id, NoDup (ids (primitives (removePrimitive id st))))
  /\ (forall id direction, NoDup (ids (primitives (reorderPrimitive id direction st))))
  /\ (forall id f, (forall p, p_id (f p) = p_id p) ->
                   NoDup (ids (primitives (patchPrimitive id (UpdaterFn f) st))))
  /\ (forall suffix rnd type,
         ~ In (randomId suffix) (ids (primitives st)) ->
         NoDup (ids (primitives (addPrimitive suffix rnd type st)))).
Proof.
  intros Hnd. split; [|split; [|split]].
  - intros id. unfold removePrimitive. cbn [primitives]. apply ids_filter_nodup. exact Hnd.
  - intros id direction.
    apply (Permutation_NoDup (l := ids (primitives st))); [|exact Hnd].
    unfold ids. apply Permutation_map. apply reorderPrimitive_permutation.
  - intros id f Hf. rewrite patchPrimitive_ids by exact Hf. exact Hnd.
  - intros suffix rnd type Hfresh.
    unfold addPrimitive, setSelectedId, setPrimitives. cbn [primitives].
    rewrite ids_app. cbn [ids map p_id].
    apply (Permutation_NoDup (l := randomId suffix :: ids (primitives st))).
    + apply Permutation_cons_append.
    + constructor; assumption.
Qed.

Lemma lastId_nil : lastId [] = None.
Proof. reflexivity. Qed.

(** X6: adding a primitive under an id that is not in the list and removing
    it again gives back the list, but not the selection: the last primitive
    of the list is selected, or nothing when the list is empty. *)
Theorem add_then_remove (suffix : string) (rnd : Q) (type : ShapeType) (st : Store) :
  ~ In (randomId suffix) (ids (primitives st)) ->
  removePrimitive (randomId suffix) (addPrimitive suffix rnd type st)
  = mkStore (primitives st) (lastId (primitives st)).
Proof.
  intros Hfresh. unfold removePrimitive, addPrimitive, setSelectedId, setPrimitives.
  cbn [primitives selectedId p_id].
  rewrite filter_app. cbn [filter p_id].
  rewrite String.eqb_refl. cbn [negb]. rewrite app_nil_r.
  rewrite filter_absent by exact Hfresh.
  cbn [optString_eqb]. rewrite String.eqb_refl. cbn [orb].
  destruct (primitives st); reflexivity.
Qed.

(** X7: two patches of the same id compose into one patch by the composed
    updater, and patches of two different ids commute, when the updaters
    keep the id of the primitive they are given. *)
Theorem patchPrimitive_composes (f g : Primitive -> Primitive) (st : Store) :
  (forall p, p_id (f p) = p_id p) ->
  (forall p, p_id (g p) = p_id p) ->
  (forall id,
      patchPrimitive id (UpdaterFn g) (patchPrimitive id (UpdaterFn f) st)
      = patchPrimitive id (UpdaterFn (fun p => g (f p))) st)
  /\ (forall id1 id2,
         id1 <> id2 ->
         patchPrimitive id1 (UpdaterFn f) (patchPrimitive id2 (UpdaterFn g) st)
         = patchPrimitive id2 (UpdaterFn g) (patchPrimitive id1 (UpdaterFn f) st)).
Proof.
  intros Hf Hg. split.
  - intros id. unfold patchPrimitive, setPrimitives. cbn [primitives selectedId].
    f_equal. rewrite map_map. apply map_ext. intros item.
    destruct (p_id item =? id)%string eqn:E; cbn [negb applyUpdater].
    + rewrite Hf, E. reflexivity.
    + rewrite E. reflexivity.
  - intros id1 id2 Hne. unfold patchPrimitive, setPrimitives. cbn [primitives selectedId].
    f_equal. rewrite !map_map. apply map_ext. intros item.
    destruct (String.eqb_spec (p_id item) id1) as [E1|E1];
      destruct (String.eqb_spec (p_id item) id2) as [E2|E2];
      cbn [negb applyUpdater].
    + congruence.
    + rewrite Hf. rewrite (proj2 (String.eqb_neq _ _) E2).
      rewrite (proj2 (String.eqb_eq _ _) E1). reflexivity.
    + rewrite Hg. rewrite (proj2 (String.eqb_neq _ _) E1).
      rewrite (proj2 (String.eqb_eq _ _) E2). reflexivity.
    + rewrite (proj2 (String.eqb_neq _ _) E1), (proj2 (String.eqb_neq _ _) E2).
      reflexivity.
Qed.

(** * Further properties of rounding and of the resolver *)

Lemma Qfloor_shift (x : Q) (k : Z) : Qfloor (x + inject_Z k) = (Qfloor x + k)%Z.
Proof.
  pose proof (Qfloor_le x) as Flo. pose proof (Qlt_floor x) as Fhi.
  apply Qfloor_unique.
  - rewrite inject_Z_plus. lra.
  - rewrite !inject_Z_plus in *. lra.
Qed.

Lemma Qfloor_compat (x y : Q) : x == y -> Qfloor x = Qfloor y.
Proof. intros E. rewrite E. reflexivity. Qed.

Lemma Qfloor_half_integer (k : Z) (x : Q) :
  x == inject_Z k -> Qfloor (x + (1 # 2)) = k.
Proof.
  intros E.
  assert (Ex : x + (1 # 2) == (1 # 2) + inject_Z k) by (rewrite E; ring).
  rewrite (Qfloor_compat Ex), Qfloor_shift. reflexivity.
Qed.

Lemma Zabs_Qabs (k b : Z) : (Z.abs k <= b)%Z -> Qabs (inject_Z k) <= inject_Z b.
Proof.
  intros H. apply Qabs_Qle_condition.
  assert (H1 : (- b <= k)%Z) by lia. assert (H2 : (k <= b)%Z) by lia.
  rewrite Zle_Qle in H1, H2. rewrite inject_Z_opp in H1. split; assumption.
Qed.

(** A magnitude of at most 10^13 is far from the overflow of a product. *)
Lemma small_in_range (x : Q) :
  Qabs x <= inject_Z (10 ^ 13) -> - overflowBound < x /\ x < overflowBound.
Proof.
  intros H. apply Qabs_Qle_condition in H.
  pose proof overflowBound_large as HB.
  assert (HL : inject_Z (10 ^ 13) < inject_Z (10 ^ 300)).
  { rewrite <- Zlt_Qlt. apply Z.ltb_lt. vm_compute. reflexivity. }
  destruct H. split; lra.
Qed.

Lemma inject_Z_le_compat (a b : Z) : (a <= b)%Z -> inject_Z a <= inject_Z b.
Proof. intros H. rewrite <- Zle_Qle. exact H. Qed.

(** [roundValue] leaves a number of hundredths of magnitude at most 10^12
    as it is. *)
Lemma roundValue_fixes (k : Z) (q : Q) :
  (Z.abs k <= 10 ^ 12)%Z -> q == inject_Z k / 100 -> roundValue (Fin q) = hundredths k.
Proof.
  intros Hk E.
  assert (Ek : q * 100 == inject_Z k) by (rewrite E, Qdiv_100; field).
  assert (Hr : Qabs (q * 100) <= inject_Z (10 ^ 13)).
  { rewrite Ek. apply Zabs_Qabs.
    assert (10 ^ 12 <= 10 ^ 13)%Z by (apply Z.leb_le; vm_compute; reflexivity). lia. }
  destruct (@small_in_range _ Hr) as [Hlo Hhi].
  rewrite (@roundValue_small _ Hlo Hhi). f_equal. apply Qfloor_half_integer. exact Ek.
Qed.

Lemma sameNumber_Fin (v : number) (q : Q) :
  sameNumber v (Fin q) -> exists p, v = Fin p /\ p == q.
Proof. destruct v as [p| | |]; simpl; intros H; try contradiction. eauto. Qed.

Lemma sameNumber_hundredths (v : number) (k : Z) :
  sameNumber v (hundredths k) -> exists q, v = Fin q /\ q == inject_Z k / 100.
Proof. rewrite hundredths_Fin. apply sameNumber_Fin. Qed.

Lemma numLe_overflow (p q : Q) : p <= q -> numLe (overflow p) (overflow q).
Proof.
  intros H.
  assert (HB : 0 < overflowBound).
  { pose proof overflowBound_large as HB.
    assert (0 < inject_Z (10 ^ 300)) by reflexivity. lra. }
  destruct (overflow_cases p) as [[Hp ->]|[[Hp ->]|(Hp1 & Hp2 & ->)]];
    destruct (overflow_cases q) as [[Hq ->]|[[Hq ->]|(Hq1 & Hq2 & ->)]];
    simpl; try exact I; try lra.
Qed.

Lemma numLe_round (a b : number) :
  numLe a b -> numLe (JsNum.round a) (JsNum.round b).
Proof.
  destruct a as [p| | |], b as [q| | |]; cbn [JsNum.round numLe]; try tauto.
  intros H. rewrite <- Zle_Qle. apply Qfloor_resp_le. lra.
Qed.

Lemma numLe_div_100 (a b : number) :
  numLe a b -> numLe (JsNum.div a (Fin 100)) (JsNum.div b (Fin 100)).
Proof.
  destruct a as [p| | |], b as [q| | |]; try (simpl; tauto).
  intros H. change (inject_Z 0) with 0. cbn [numLe] in *.
  change (JsNum.div (Fin p) (Fin 100)) with (Fin (p / 100)).
  change (JsNum.div (Fin q) (Fin 100)) with (Fin (q / 100)).
  cbn [numLe]. rewrite !Qdiv_100. lra.
Qed.

Lemma numLe_mul_100 (a b : number) :
  numLe a b -> numLe (JsNum.mul a (Fin 100)) (JsNum.mul b (Fin 100)).
Proof.
  destruct a as [p| | |], b as [q| | |]; try (simpl; tauto).
  - intros H. rewrite !mul_Fin. apply numLe_overflow. simpl in H. lra.
  - intros _. rewrite mul_Fin.
    destruct (overflow_cases (p * 100)) as [[_ ->]|[[_ ->]|(_ & _ & ->)]]; exact I.
  - intros _. rewrite mul_Fin.
    destruct (overflow_cases (q * 100)) as [[_ ->]|[[_ ->]|(_ & _ & ->)]]; exact I.
Qed.

Lemma roundValue_monotone (a b : number) :
  numLe a b -> numLe (roundValue a) (roundValue b).
Proof.
  intros H. rewrite !roundValue_unfold.
  apply numLe_div_100, numLe_round, numLe_mul_100. exact H.
Qed.

Lemma roundValue_bounded (q : Q) :
  Qabs q <= inject_Z (10 ^ 10) ->
  exists k, (Z.abs k <= 10 ^ 12)%Z /\ roundValue (Fin q) = hundredths k.
Proof.
  intros Hq. apply Qabs_Qle_condition in Hq. destruct Hq as [Hlo Hhi].
  assert (E12 : inject_Z (10 ^ 12) == inject_Z (10 ^ 10) * 100).
  { unfold Qeq. vm_compute. reflexivity. }
  assert (H13 : inject_Z (10 ^ 12) <= inject_Z (10 ^ 13)).
  { rewrite <- Zle_Qle. apply Z.leb_le. vm_compute. reflexivity. }
  assert (Hr : Qabs (q * 100) <= inject_Z (10 ^ 13)).
  { apply Qabs_Qle_condition. split; lra. }
  destruct (@small_in_range _ Hr) as [Rlo Rhi].
  exists (Qfloor (q * 100 + (1 # 2))). split; [|apply roundValue_small; assumption].
  assert (Hup : (Qfloor (q * 100 + (1 # 2)) < 10 ^ 12 + 1)%Z).
  { rewrite Zlt_Qlt, inject_Z_plus. change (inject_Z 1) with 1.
    pose proof (Qfloor_le (q * 100 + (1 # 2))). lra. }
  assert (Hdn : (- 10 ^ 12 <= Qfloor (q * 100 + (1 # 2)))%Z).
  { rewrite <- (Qfloor_Z (- 10 ^ 12)). apply Qfloor_resp_le.
    rewrite inject_Z_opp. lra. }
  lia.
Qed.

(** X8: [roundValue] returns a number that is not finite as it is; it is
    monotone, the infinities included; it leaves a number of hundredths of
    magnitude at most 10^12 as it is, so that, for a number of magnitude at
    most 10^10, rounding twice is rounding once; and it leaves an integer of
    magnitude at most 10^10 as it is. *)
Theorem roundValue_properties :
  (forall v, isFinite v = false -> roundValue v = v)
  /\ (forall a b, numLe a b -> numLe (roundValue a) (roundValue b))
  /\ (forall k, (Z.abs k <= 10 ^ 12)%Z -> roundValue (hundredths k) = hundredths k)
  /\ (forall q, Qabs q <= inject_Z (10 ^ 10) ->
                roundValue (roundValue (Fin q)) = roundValue (Fin q))
  /\ (forall n, (Z.abs n <= 10 ^ 10)%Z ->
                sameNumber (roundValue (Fin (inject_Z n))) (Fin (inject_Z n))).
Proof.
  split; [exact roundValue_nonfinite|].
  split; [exact roundValue_monotone|].
  split; [|split].
  - intros k Hk. rewrite hundredths_Fin. apply roundValue_fixes; [exact Hk | reflexivity].
  - intros q Hq. destruct (@roundValue_bounded q Hq) as (k & Hk & ->).
    rewrite hundredths_Fin. apply roundValue_fixes; [exact Hk | reflexivity].
  - intros n Hn.
    assert (E : inject_Z n == inject_Z (n * 100) / 100).
    { rewrite inject_Z_mult, Qdiv_100. change (inject_Z 100) with 100. field. }
    assert (Hb : (Z.abs (n * 100) <= 10 ^ 12)%Z).
    { rewrite Z.abs_mul. change (Z.abs 100) with 100%Z.
      change (10 ^ 12)%Z with (10 ^ 10 * 100)%Z. lia. }
    rewrite (@roundValue_fixes _ _ Hb E), hundredths_Fin. cbn [sameNumber].
    symmetry. exact E.
Qed.

Lemma resolved_settled (f : jsval) (u : Q) :
  u == 1 -> settledField f ->
  sameField (Some (roundValue (clampDimension (JsNum.mul (toNumber f) (Fin u))))) f.
Proof.
  intros Eu (k & v & Hk & -> & Hv).
  destruct (@sameNumber_hundredths _ _ Hv) as (q & -> & Eq).
  cbn [toNumber]. rewrite mul_Fin.
  assert (Hk10 : 10 <= inject_Z k) by (apply (@inject_Z_le_compat 10 k); lia).
  assert (Hk12 : inject_Z k <= inject_Z (10 ^ 12)) by (apply inject_Z_le_compat; lia).
  assert (H13 : inject_Z (10 ^ 12) <= inject_Z (10 ^ 13)).
  { apply inject_Z_le_compat. apply Z.leb_le. vm_compute. reflexivity. }
  assert (Equ : q * u == inject_Z k / 100) by (rewrite Eu, Qmult_1_r; exact Eq).
  rewrite Qdiv_100 in Equ.
  assert (Hr : Qabs (q * u) <= inject_Z (10 ^ 13)).
  { apply Qabs_Qle_condition. split; lra. }
  destruct (@small_in_range _ Hr) as [Rlo Rhi].
  rewrite (@overflow_small _ Rlo Rhi).
  destruct (clampDimension_Fin (q * u)) as (c & -> & _ & Hc).
  rewrite Hc by lra.
  assert (Hkk : (Z.abs k <= 10 ^ 12)%Z) by lia.
  rewrite (@roundValue_fixes k (q * u) Hkk) by (rewrite Qdiv_100; exact Equ).
  rewrite hundredths_Fin. cbn [sameField sameNumber]. symmetry. exact Eq.
Qed.

(** X9: at the unit scale the resolver gives back the dimensions it was
    given, when they are settled (the keys of the shape, each a number of
    hundredths from 10 to 10^12): a press and release of the resize gizmo
    without a drag changes no dimension. *)
Theorem computeScaledDimensions_unit_scale (type : ShapeType) (d : Dimensions) :
  settledDimensions type d ->
  exists n,
    computeScaledDimensions type d (Some (mkVec3 (Fin 1) (Fin 1) (Fin 1))) = Some n
    /\ sameDimensions n d.
Proof.
  destruct d as [w h dp r]. destruct type; cbn [settledDimensions width height depth radius].
  - intros (Hw & Hh & Hd & ->).
    eexists. split; [reflexivity|].
    unfold sameDimensions. cbn [width height depth radius].
    repeat split; try (apply resolved_settled; [reflexivity | assumption]).
  - intros (Hr & -> & -> & ->).
    eexists. split; [reflexivity|].
    unfold sameDimensions. cbn [width height depth radius].
    repeat split; try (apply resolved_settled; [reflexivity | assumption]).
  - intros (Hr & Hh & -> & ->).
    eexists. split; [reflexivity|].
    unfold sameDimensions. cbn [width height depth radius].
    repeat split; try (apply resolved_settled; [reflexivity | assumption]).
Qed.

Lemma abs_opp (v : number) : JsNum.abs (num_opp v) = JsNum.abs v.
Proof.
  destruct v as [[n d]| | |]; try reflexivity.
  simpl. rewrite Z.abs_opp. reflexivity.
Qed.

(** X10: the resolver reads the scale only through the absolute values of
    its components: mirroring the scale along any of the three axes gives
    the same dimensions. *)
Theorem computeScaledDimensions_mirror (type : ShapeType) (base : Dimensions)
  (x y z : number) (fx fy fz : bool) :
  computeScaledDimensions type base
    (Some (mkVec3 (if fx then num_opp x else x)
                  (if fy then num_opp y else y)
                  (if fz then num_opp z else z)))
  = computeScaledDimensions type base (Some (mkVec3 x y z)).
Proof.
  unfold computeScaledDimensions. cbn [vx vy vz].
  assert (Hx : JsNum.abs (if fx then num_opp x else x) = JsNum.abs x)
    by (destruct fx; [apply abs_opp | reflexivity]).
  assert (Hy : JsNum.abs (if fy then num_opp y else y) = JsNum.abs y)
    by (destruct fy; [apply abs_opp | reflexivity]).
  assert (Hz : JsNum.abs (if fz then num_opp z else z) = JsNum.abs z)
    by (destruct fz; [apply abs_opp | reflexivity]).
  rewrite Hx, Hy, Hz. reflexivity.
Qed.

Lemma scaleBound_nonneg : 0 <= scaleBound.
Proof. unfold scaleBound. apply (@inject_Z_le_compat 0). apply Z.leb_le. vm_compute. reflexivity. Qed.

(** The product of two magnitudes up to [scaleBound], clamped and multiplied
    by 100, is below the overflow. *)
Lemma scaleBound_room : (scaleBound * scaleBound + 1) * 100 < overflowBound.
Proof.
  unfold Qlt, scaleBound, overflowBound. apply Z.ltb_lt. vm_compute. reflexivity.
Qed.

Lemma product_le (q u u' : Q) :
  0 <= q <= scaleBound -> 0 <= u -> u <= u' -> u' <= scaleBound ->
  0 <= q * u /\ q * u <= q * u' /\ q * u' <= scaleBound * scaleBound.
Proof.
  intros [Hq0 Hq] Hu0 Hu Hu'. split; [|split].
  - apply Qmult_le_0_compat; assumption.
  - rewrite (Qmult_comm q u), (Qmult_comm q u').
    apply Qmult_le_compat_r; assumption.
  - apply Qle_trans with (scaleBound * u').
    + apply Qmult_le_compat_r; [exact Hq | lra].
    + rewrite (Qmult_comm scaleBound u').
      apply Qmult_le_compat_r; [exact Hu' | exact scaleBound_nonneg].
Qed.

Lemma resolved_monotone (p p' : Q) :
  0 <= p -> p <= p' -> p' <= scaleBound * scaleBound ->
  fieldLe (Some (roundValue (clampDimension (Fin p))))
          (Some (roundValue (clampDimension (Fin p')))).
Proof.
  intros H0 H Hb.
  pose proof scaleBound_room as Hroom.
  destruct (clampDimension_Fin p) as (c & -> & Hc & _).
  destruct (clampDimension_Fin p') as (c' & -> & Hc' & _).
  assert (Hlo : 1 # 10 <= c) by (rewrite Hc; apply Q.le_max_l).
  assert (Hcc : c <= c') by (rewrite Hc, Hc'; apply Q.max_le_compat_l; exact H).
  assert (Hup : c' <= scaleBound * scaleBound + 1).
  { rewrite Hc'. apply Q.max_lub; [|lra].
    pose proof scaleBound_nonneg as Hs.
    assert (0 <= scaleBound * scaleBound) by (apply Qmult_le_0_compat; exact Hs). lra. }
  rewrite !roundValue_small by lra.
  rewrite !hundredths_Fin. cbn [fieldLe].
  assert (Hk : (Qfloor (c * 100 + (1 # 2)) <= Qfloor (c' * 100 + (1 # 2)))%Z).
  { apply Qfloor_resp_le. lra. }
  rewrite Zle_Qle in Hk. rewrite !Qdiv_100. lra.
Qed.

Lemma scaled_field_le (f : jsval) (u u' : Q) :
  nonNegativeField f -> 0 <= u -> u <= u' -> u' <= scaleBound ->
  fieldLe (Some (roundValue (clampDimension (JsNum.mul (toNumber f) (Fin u)))))
          (Some (roundValue (clampDimension (JsNum.mul (toNumber f) (Fin u'))))).
Proof.
  destruct f as [[q| | |]|]; cbn [nonNegativeField toNumber]; intros Hf Hu0 Hu Hu';
    try contradiction.
  - destruct (@product_le q u u' Hf Hu0 Hu Hu') as (H0 & H1 & H2).
    pose proof scaleBound_room as Hroom.
    rewrite !mul_Fin, !overflow_small by lra.
    apply resolved_monotone; assumption.
  - assert (E : forall x, roundValue (clampDimension (JsNum.mul NaN (Fin x))) = Fin (10 # 100))
      by (intros x; vm_compute; reflexivity).
    rewrite !E. cbn [fieldLe]. lra.
Qed.

(** X11: the resolver is monotone in the scale as long as nothing
    overflows: for base dimensions that are finite, not negative and at
    most 10^100, a finite scale that is componentwise not larger in absolute
    value than another, itself at most 10^100, gives dimensions that are
    fieldwise not larger. *)
Theorem computeScaledDimensions_monotone (type : ShapeType) (base : Dimensions)
  (s t : Vec3) :
  nonNegativeDimensions base ->
  scaleLe s t ->
  exists n m,
    computeScaledDimensions type base (Some s) = Some n
    /\ computeScaledDimensions type base (Some t) = Some m
    /\ dimensionsLe n m.
Proof.
  intros (Hw & Hh & Hd & Hr) Hs.
  destruct s as [[a| | |] [b| | |] [c| | |]]; try contradiction;
    destruct t as [[a'| | |] [b'| | |] [c'| | |]]; try contradiction.
  unfold scaleLe in Hs. cbn [vx vy vz] in Hs.
  destruct Hs as (Ha & Hb & Hc & Ha' & Hb' & Hc').
  pose proof (Qabs_nonneg a) as Za. pose proof (Qabs_nonneg b) as Zb.
  pose proof (Qabs_nonneg c) as Zc.
  destruct type; eexists; eexists; (split; [reflexivity|]); (split; [reflexivity|]);
    unfold dimensionsLe; cbn [width height depth radius fieldLe vx vy vz];
    repeat split; try (apply scaled_field_le; assumption).
  - apply scaled_field_le; [assumption | | |]; unfold Qdiv; change (/ 3) with (1 # 3); lra.
  - apply scaled_field_le; [assumption | | |]; unfold Qdiv; change (/ 2) with (1 # 2); lra.
Qed.

(** * Further properties of the transform session *)

Lemma setRef_same {A : Type} (id : string) (v : option A) (r : string -> option A) :
  setRef id v r id = v.
Proof. unfold setRef. rewrite String.eqb_refl. reflexivity. Qed.

Lemma find_id_map (sid : string) (f : Primitive -> Primitive) (l : list Primitive) :
  (forall a, p_id (f a) = p_id a) ->
  find (fun primitive => (p_id primitive =? sid)%string) (map f l)
  = option_map f (find (fun primitive => (p_id primitive =? sid)%string) l).
Proof.
  intros Hf. apply find_map_same. intros a. rewrite Hf. reflexivity.
Qed.

(** The selected primitive after a patch by an updater that keeps ids. *)
Lemma selectedPrimitive_patch (id : string) (f : Primitive -> Primitive) (st : Store) :
  (forall a, p_id (f a) = p_id a) ->
  selectedPrimitive (patchPrimitive id (UpdaterFn f) st)
  = option_map (fun item => if negb (p_id item =? id)%string then item else f item)
      (selectedPrimitive st).
Proof.
  intros Hf. unfold selectedPrimitive, patchPrimitive, setPrimitives.
  cbn [primitives selectedId]. destruct (selectedId st) as [sid|]; [|reflexivity].
  apply find_id_map. intros a. destruct (negb _); [reflexivity | apply Hf].
Qed.

(** X12: a whole resize session on the selected primitive (press, one
    drag, release) stores for it the dimensions resolved from the
    dimensions it had at the press and the scale of the proxy at the
    release, and changes nothing else in the list; it leaves no snapshot
    behind and resets the scale of the proxy to one, keeping its position. *)
Theorem resize_session_commits (ws : Workspace) (primitive : Primitive)
  (m live : Proxy) :
  handleMode ws = resize ->
  selectedPrimitive (store ws) = Some primitive ->
  meshRef ws (p_id primitive) = Some m ->
  exists n,
    computeScaledDimensions (p_type primitive) (p_dimensions primitive)
      (Some (proxy_scale live)) = Some n
    /\ primitives (store (run (fullSession live) ws))
       = map (fun item =>
                if (p_id item =? p_id primitive)%string
                then withDimensions item n else item)
             (primitives (store ws))
    /\ selectedId (store (run (fullSession live) ws)) = selectedId (store ws)
    /\ sessionRef (run (fullSession live) ws) (p_id primitive) = None
    /\ meshRef (run (fullSession live) ws) (p_id primitive)
       = Some (mkProxy (proxy_position live) (mkVec3 (Fin 1) (Fin 1) (Fin 1))).
Proof.
  intros Hmode Hsel Hmesh.
  destruct (computeScaledDimensions_some (p_type primitive) (p_dimensions primitive)
              (proxy_scale live)) as (n & Hn).
  exists n. split; [exact Hn|].
  unfold fullSession, run. cbn [fold_left].
  assert (E1 : step GizmoMouseDown ws
               = mkWorkspace (store ws) (handleMode ws)
                   (setRef (p_id primitive) (Some (mkSession (p_dimensions primitive)))
                      (sessionRef ws))
                   (meshRef ws)).
  { cbn [step]. unfold onMouseDown. rewrite Hsel, Hmode. reflexivity. }
  rewrite E1.
  set (ws1 := mkWorkspace _ _ _ _).
  assert (E2 : step (GizmoDrag live) ws1
               = mkWorkspace (store ws) (handleMode ws) (sessionRef ws1)
                   (setRef (p_id primitive) (Some live) (meshRef ws))).
  { cbn [step]. unfold ws1 at 1 2. cbn [store meshRef]. rewrite Hsel, Hmesh. reflexivity. }
  rewrite E2.
  cbn [step]. unfold onMouseUp. cbn [store handleMode sessionRef meshRef].
  rewrite Hsel, Hmode. unfold ws1. cbn [sessionRef gizmoMode].
  rewrite !setRef_same. cbn [finalizeResize finalizeTranslate startDimensions].
  rewrite Hn. cbn [app applyCalls fold_left fst snd store sessionRef meshRef].
  rewrite handleTransformPrimitive_dimensions. cbn [primitives selectedId].
  rewrite !setRef_same. repeat split; reflexivity.
Qed.

Lemma handleTransformPrimitive_selected (payload : TransformPayload) (st : Store)
  (primitive : Primitive) :
  selectedPrimitive st = Some primitive ->
  exists primitive',
    selectedPrimitive (handleTransformPrimitive (p_id primitive) payload st) = Some primitive'
    /\ p_id primitive' = p_id primitive.
Proof.
  intros Hsel. unfold handleTransformPrimitive.
  rewrite selectedPrimitive_patch by (intros a; reflexivity).
  rewrite Hsel. cbn [option_map]. rewrite String.eqb_refl. cbn [negb].
  eexists. split; reflexivity.
Qed.

Lemma handleTransformPrimitive_position_twice (id : string) (pos : Vec3) (st : Store) :
  handleTransformPrimitive id (mkPayload (Some pos) None)
    (handleTransformPrimitive id (mkPayload (Some pos) None) st)
  = handleTransformPrimitive id (mkPayload (Some pos) None) st.
Proof.
  rewrite !handleTransformPrimitive_position. cbn [primitives selectedId].
  f_equal. rewrite map_map. apply map_ext. intros item.
  destruct (p_id item =? id)%string eqn:E; [|rewrite E; reflexivity].
  cbn [withPosition p_id]. rewrite E. reflexivity.
Qed.

(** X13: a second release of the gizmo right after a release leaves the
    store as the first release left it, in either mode: the resize commit is
    not applied twice, since the release clears the snapshot, and the
    translate commit writes the same position again. *)
Theorem release_twice (ws : Workspace) :
  store (step GizmoMouseUp (step GizmoMouseUp ws)) = store (step GizmoMouseUp ws).
Proof.
  cbn [step].
  destruct (selectedPrimitive (store ws)) as [p|] eqn:Hsel.
  2:{ assert (E : onMouseUp ws = ws) by (unfold onMouseUp; rewrite Hsel; reflexivity).
      rewrite !E. reflexivity. }
  remember (onMouseUp ws) as ws1 eqn:E1.
  unfold onMouseUp in E1. rewrite Hsel in E1.
  unfold finalizeResize, finalizeTranslate in E1.
  destruct (handleMode ws) eqn:Hmode; cbn [gizmoMode] in E1;
    destruct (meshRef ws (p_id p)) as [m|] eqn:Hmesh;
    destruct (sessionRef ws (p_id p)) as [s|] eqn:Hsess;
    cbn [app applyCalls fold_left fst snd] in E1.
  all: try (subst ws1; unfold onMouseUp; cbn [store handleMode sessionRef meshRef];
            rewrite Hsel; cbn [gizmoMode]; rewrite !setRef_same;
            cbn [finalizeResize finalizeTranslate app applyCalls fold_left];
            reflexivity).
  - subst ws1. unfold onMouseUp. cbn [store handleMode sessionRef meshRef].
    destruct (handleTransformPrimitive_selected
                (mkPayload (Some (positionFromWorld
                   (mkVec3 (roundValue (vx (proxy_position m)))
                           (roundValue (vy (proxy_position m)))
                           (roundValue (vz (proxy_position m)))))) None) _ Hsel)
      as (p' & -> & Hid).
    cbn [gizmoMode]. rewrite Hid, !setRef_same.
    cbn [finalizeResize finalizeTranslate app applyCalls fold_left fst snd store].
    rewrite Hid. apply handleTransformPrimitive_position_twice.
  - subst ws1. unfold onMouseUp. cbn [store handleMode sessionRef meshRef].
    destruct (handleTransformPrimitive_selected
                (mkPayload (Some (positionFromWorld
                   (mkVec3 (roundValue (vx (proxy_position m)))
                           (roundValue (vy (proxy_position m)))
                           (roundValue (vz (proxy_position m)))))) None) _ Hsel)
      as (p' & -> & Hid).
    cbn [gizmoMode]. rewrite Hid, !setRef_same.
    cbn [finalizeResize finalizeTranslate app applyCalls fold_left fst snd store].
    rewrite Hid. apply handleTransformPrimitive_position_twice.
  - destruct (computeScaledDimensions_some (p_type p) (startDimensions s) (proxy_scale m))
      as (n & Hn).
    rewrite Hn in E1. cbn [app applyCalls fold_left fst snd] in E1.
    subst ws1. unfold onMouseUp. cbn [store handleMode sessionRef meshRef].
    destruct (handleTransformPrimitive_selected (mkPayload None (Some n)) _ Hsel)
      as (p' & -> & Hid).
    cbn [gizmoMode]. rewrite Hid, !setRef_same.
    cbn [finalizeResize finalizeTranslate app applyCalls fold_left]. reflexivity.
Qed.

(** * Properties of the keyboard nudges *)

Lemma sameNumber_refl (v : number) : sameNumber v v.
Proof. destruct v; simpl; [reflexivity | exact I | exact I | exact I]. Qed.

Lemma sameVec3_refl (p : Vec3) : sameVec3 p p.
Proof. repeat split; apply sameNumber_refl. Qed.

Lemma samePlace_refl (p : Primitive) : samePlace p p.
Proof. unfold samePlace. repeat split; try reflexivity; apply sameNumber_refl. Qed.

Lemma Forall2_map_pointwise {A : Type} (R : A -> A -> Prop) (f : A -> A) (l : list A) :
  (forall a, In a l -> R (f a) a) -> Forall2 R (map f l) l.
Proof.
  induction l as [|a l IH]; simpl; intros H; constructor.
  - apply H. left. reflexivity.
  - apply IH. intros b Hb. apply H. right. exact Hb.
Qed.

Lemma Forall2_refl_on {A : Type} (R : A -> A -> Prop) (l : list A) :
  (forall a, R a a) -> Forall2 R l l.
Proof. intros H. induction l; constructor; auto. Qed.

(** Adding [d] and then [d'], rounding after each, to a number of hundredths
    of magnitude at most 10^10 gives it back when [d] is at most 50
    hundredths and [d + d'] is zero. *)
Lemma nudge_back (v : number) (d d' : Q) (kd : Z) :
  boundedHundredth (10 ^ 10) v ->
  d == inject_Z kd / 100 -> (Z.abs kd <= 50)%Z -> d + d' == 0 ->
  sameNumber
    (roundValue (JsNum.add (roundValue (JsNum.add v (Fin d))) (Fin d')))
    v.
Proof.
  intros (k & Hk & Hv) Ed Hkd Hz.
  destruct (@sameNumber_hundredths _ _ Hv) as (q & -> & Eq).
  assert (H12 : (10 ^ 10 + 50 <= 10 ^ 12)%Z) by (apply Z.leb_le; vm_compute; reflexivity).
  cbn [JsNum.add].
  assert (E1 : q + d == inject_Z (k + kd) / 100).
  { rewrite Eq, Ed, inject_Z_plus, !Qdiv_100. ring. }
  assert (B1 : (Z.abs (k + kd) <= 10 ^ 12)%Z) by lia.
  rewrite (@roundValue_fixes _ _ B1 E1), hundredths_Fin. cbn [JsNum.add].
  assert (E2 : inject_Z (k + kd) / 100 + d' == inject_Z k / 100).
  { rewrite <- E1, <- Eq, <- Qplus_assoc, Hz. ring. }
  assert (B2 : (Z.abs k <= 10 ^ 12)%Z) by lia.
  rewrite (@roundValue_fixes _ _ B2 E2), hundredths_Fin. cbn [sameNumber].
  symmetry. exact Eq.
Qed.

Lemma handleKeyDown_guarded (event : KeyEvent) (st : Store) :
  selectedId st = None \/ selectedId st = Some ""
  \/ ev_focusInField event = true \/ ev_key event = OtherKey ->
  handleKeyDown event st = st.
Proof.
  unfold handleKeyDown. intros [H|[H|[H|H]]].
  - rewrite H. reflexivity.
  - rewrite H. reflexivity.
  - destruct (selectedId st) as [sid|]; [|reflexivity].
    destruct (sid =? "")%string; [reflexivity|]. rewrite H. reflexivity.
  - destruct (selectedId st) as [sid|]; [|reflexivity].
    destruct (sid =? "")%string; [reflexivity|].
    destruct (ev_focusInField event); [reflexivity|]. rewrite H. reflexivity.
Qed.

(** The nudge as a map over the list, when no guard stops it. *)
Lemma handleKeyDown_moves (event : KeyEvent) (st : Store) (sid : string) :
  selectedId st = Some sid -> sid <> "" ->
  ev_focusInField event = false -> ev_key event <> OtherKey ->
  exists dx dz,
    (dx, dz) = (let step := if ev_shiftKey event then Fin ((1 # 4) * 2) else Fin (1 # 4) in
                match ev_key event with
                | ArrowUp => (Fin 0, step)
                | ArrowDown => (Fin 0, num_opp step)
                | ArrowLeft => (num_opp step, Fin 0)
                | ArrowRight => (step, Fin 0)
                | OtherKey => (Fin 0, Fin 0)
                end)
    /\ handleKeyDown event st
       = mkStore
           (map (fun item =>
                   if (p_id item =? sid)%string
                   then withPosition item
                          (mkVec3 (roundValue (JsNum.add (vx (p_position item)) dx))
                                  (roundValue (JsNum.add (vy (p_position item)) (Fin 0)))
                                  (roundValue (JsNum.add (vz (p_position item)) dz)))
                   else item)
                (primitives st))
           (selectedId st).
Proof.
  intros Hsel Hne Hfocus Hkey. unfold handleKeyDown. rewrite Hsel, Hfocus.
  rewrite (proj2 (String.eqb_neq sid "") Hne).
  destruct (ev_key event) eqn:Ek; try congruence; cbn [isArrowKey negb];
    destruct (ev_shiftKey event); eexists; eexists; (split; [reflexivity|]);
    unfold patchPrimitive, setPrimitives; rewrite Hsel; f_equal;
    apply map_ext; intros item; destruct (p_id item =? sid)%string; reflexivity.
Qed.

(** X14: the arrow-key handler does nothing when nothing is selected, when
    the focus is in a form field or when the key is not an arrow; in every
    case it keeps the selection, the order of the list and, of every
    primitive, the id, name, type, operation and dimensions, and it leaves
    every primitive that is not the selected one as it is. *)
Theorem handleKeyDown_guards_and_keeps (event : KeyEvent) (st : Store) :
  (selectedId st = None \/ selectedId st = Some ""
   \/ ev_focusInField event = true \/ ev_key event = OtherKey ->
   handleKeyDown event st = st)
  /\ selectedId (handleKeyDown event st) = selectedId st
  /\ map unmoved (primitives (handleKeyDown event st)) = map unmoved (primitives st)
  /\ (forall item,
         In item (primitives st) -> selectedId st <> Some (p_id item) ->
         In item (primitives (handleKeyDown event st))).
Proof.
  split; [apply handleKeyDown_guarded|].
  destruct (selectedId st) as [sid|] eqn:Hsel.
  2:{ rewrite handleKeyDown_guarded by (left; exact Hsel).
      rewrite Hsel. repeat split; auto. }
  destruct (string_dec sid "") as [He|He].
  { rewrite handleKeyDown_guarded by (right; left; congruence).
    rewrite Hsel. repeat split; auto. }
  destruct (ev_focusInField event) eqn:Hf.
  { rewrite handleKeyDown_guarded by (right; right; left; exact Hf).
    rewrite Hsel. repeat split; auto. }
  destruct (ev_key event) eqn:Hk.
  5:{ rewrite handleKeyDown_guarded by (right; right; right; exact Hk).
      rewrite Hsel. repeat split; auto. }
  all: destruct (@handleKeyDown_moves event st sid Hsel He Hf) as (dx & dz & _ & ->);
    [congruence|]; cbn [primitives selectedId];
    (split; [exact Hsel|]); split;
    [ rewrite map_map; apply map_ext; intros item;
      destruct (p_id item =? sid)%string; reflexivity
    | intros item Hin Hns; apply in_map_iff; exists item; split; [|exact Hin];
      destruct (String.eqb_spec (p_id item) sid) as [E|E]; [congruence | reflexivity] ].
Qed.

Ltac nudge_back_by kd :=
  apply (@nudge_back _ _ _ kd);
  [ assumption | unfold Qeq; reflexivity | lia | unfold Qeq; reflexivity ].

Ltac nudge_back_step :=
  first [ nudge_back_by 0%Z | nudge_back_by 25%Z | nudge_back_by (-25)%Z
        | nudge_back_by 50%Z | nudge_back_by (-50)%Z ].

(** X15: an arrow key followed by the opposite arrow key, with the same
    shift state, puts every primitive back where it was, when the
    coordinates of the selected primitive are numbers of hundredths of
    magnitude at most 10^10. *)
Theorem opposite_keys_cancel (event : KeyEvent) (st : Store) :
  (forall item,
      In item (primitives st) -> selectedId st = Some (p_id item) ->
      hundredthPosition (p_position item)) ->
  Forall2 samePlace
    (primitives
       (handleKeyDown
          (mkKeyEvent (oppositeKey (ev_key event)) (ev_shiftKey event)
             (ev_focusInField event))
          (handleKeyDown event st)))
    (primitives st)
  /\ selectedId
       (handleKeyDown
          (mkKeyEvent (oppositeKey (ev_key event)) (ev_shiftKey event)
             (ev_focusInField event))
          (handleKeyDown event st))
     = selectedId st.
Proof.
  intros Hpos. destruct event as [k sh fo].
  cbn [ev_key ev_shiftKey ev_focusInField].
  assert (Hstop : forall e b,
             handleKeyDown e st = st -> handleKeyDown b st = st ->
             Forall2 samePlace (primitives (handleKeyDown b (handleKeyDown e st)))
               (primitives st)
             /\ selectedId (handleKeyDown b (handleKeyDown e st)) = selectedId st).
  { intros e b E1 E2. rewrite E1, E2. split; [|reflexivity].
    apply Forall2_refl_on. apply samePlace_refl. }
  destruct (selectedId st) as [sid|] eqn:Hsel.
  2:{ apply Hstop; apply handleKeyDown_guarded; left; exact Hsel. }
  destruct (string_dec sid "") as [He|He].
  { apply Hstop; apply handleKeyDown_guarded; right; left; congruence. }
  destruct fo.
  { apply Hstop; apply handleKeyDown_guarded; right; right; left; reflexivity. }
  destruct k.
  5:{ apply Hstop; apply handleKeyDown_guarded; right; right; right; reflexivity. }
  all: cbn [oppositeKey];
    match goal with
    | |- context [handleKeyDown ?b (handleKeyDown ?e ?s0)] =>
        destruct (@handleKeyDown_moves e s0 sid Hsel He eq_refl) as (dx & dz & Ed & E1);
        [discriminate|];
        rewrite Hsel in E1; rewrite E1;
        match goal with
        | |- context [handleKeyDown b ?s1] =>
            destruct (@handleKeyDown_moves b s1 sid eq_refl He eq_refl)
              as (dx' & dz' & Ed' & E2);
            [discriminate|]
        end
    end;
    rewrite E2; cbn [primitives selectedId]; (split; [|reflexivity]);
    rewrite map_map; apply Forall2_map_pointwise; intros item Hin;
    destruct (String.eqb_spec (p_id item) sid) as [Eid|Eid];
    [| rewrite (proj2 (String.eqb_neq _ _) Eid); apply samePlace_refl ];
    cbn [withPosition p_id p_position]; rewrite (proj2 (String.eqb_eq _ _) Eid);
    assert (Hh : hundredthPosition (p_position item)) by (apply Hpos; [exact Hin | congruence]);
    destruct Hh as (Hx & Hy & Hz);
    cbn [ev_key ev_shiftKey] in Ed, Ed';
    destruct sh; cbn [num_opp] in Ed, Ed';
    injection Ed as -> ->; injection Ed' as -> ->;
    unfold samePlace, sameVec3;
    cbn [withPosition p_id p_name p_type p_operation p_dimensions p_position vx vy vz];
    (repeat split; try reflexivity);
    nudge_back_step.
Qed.

(** * Properties of the inspector and of the labels *)

Lemma setAxis_getAxis (axis : Axis) (p : Vec3) : setAxis axis (getAxis axis p) p = p.
Proof. destruct p, axis; reflexivity. Qed.

Lemma getAxis_setAxis (axis : Axis) (v : number) (p : Vec3) :
  getAxis axis (setAxis axis v p) = v.
Proof. destruct axis; reflexivity. Qed.

Lemma setAxis_others (axis other : Axis) (v : number) (p : Vec3) :
  other <> axis -> getAxis other (setAxis axis v p) = getAxis other p.
Proof. destruct axis, other; intros H; try reflexivity; congruence. Qed.

Lemma withPosition_same (item : Primitive) : withPosition item (p_position item) = item.
Proof. destruct item. reflexivity. Qed.

Lemma map_unchanged {A : Type} (f : A -> A) (l : list A) :
  (forall a, In a l -> f a = a) -> map f l = l.
Proof.
  intros H. rewrite <- (map_id l) at 2. apply map_ext_in. exact H.
Qed.

(** X16: in a position input of the inspector an entry that does not parse
    to a finite number leaves the store as it is; a finite entry becomes
    that coordinate as typed, without rounding, for the primitives of that
    id, and their two other coordinates are kept. *)
Theorem onPositionInput_behaviour (primitive : Primitive) (axis : Axis) (st : Store) :
  (forall parsed, isFinite parsed = false ->
                  onPositionInput primitive axis parsed st = st)
  /\ (forall q item,
         In item (primitives (onPositionInput primitive axis (Fin q) st)) ->
         p_id item = p_id primitive ->
         getAxis axis (p_position item) = Fin q
         /\ exists before,
              In before (primitives st)
              /\ unmoved before = unmoved item
              /\ forall other, other <> axis ->
                   getAxis other (p_position item) = getAxis other (p_position before)).
Proof.
  split.
  - intros parsed Hp. destruct st as [items sel].
    unfold onPositionInput, patchPrimitive, setPrimitives. cbn [primitives selectedId].
    f_equal. apply map_unchanged. intros item _.
    destruct (negb _); [reflexivity|]. cbn [applyUpdater].
    unfold parseNumber. rewrite Hp. cbn [toNumber].
    rewrite setAxis_getAxis. apply withPosition_same.
  - intros q item Hin Hid.
    unfold onPositionInput, patchPrimitive, setPrimitives in Hin. cbn [primitives] in Hin.
    apply in_map_iff in Hin. destruct Hin as (before & E & Hb).
    destruct (String.eqb_spec (p_id before) (p_id primitive)) as [Eb|Eb];
      cbn [negb applyUpdater] in E; subst item.
    + cbn [withPosition p_position parseNumber isFinite toNumber].
      split; [apply getAxis_setAxis|].
      exists before. split; [exact Hb|]. split; [reflexivity|].
      intros other Ho. apply setAxis_others. exact Ho.
    + contradiction.
Qed.

(** X17: a distance label stores, for the primitives of the rendered id,
    the typed number rounded to two decimal places when that number is
    finite, and otherwise the rounding of the value the label shows, which
    is itself the rounding of the coordinate of the rendered primitive; the
    two other coordinates stored are those of the rendered primitive. *)
Theorem onDistanceCommit_rounds (primitive : Primitive) (axis : Axis) (parsed : number)
  (st : Store) (item : Primitive) :
  In item (primitives (onDistanceCommit primitive axis parsed st)) ->
  p_id item = p_id primitive ->
  let entry :=
    if isFinite parsed then parsed
    else roundValue (getAxis axis (p_position primitive)) in
  getAxis axis (p_position item) = roundValue entry
  /\ roundedBy entry (getAxis axis (p_position item))
  /\ (forall other, other <> axis ->
        getAxis other (p_position item) = getAxis other (p_position primitive)).
Proof.
  intros Hin Hid entry. unfold onDistanceCommit, updatePosition in Hin.
  rewrite handleTransformPrimitive_position in Hin. cbn [primitives] in Hin.
  apply in_map_iff in Hin. destruct Hin as (before & E & Hb).
  destruct (String.eqb_spec (p_id before) (p_id primitive)) as [Eb|Eb]; subst item.
  - cbn [withPosition p_position].
    assert (Hv : getAxis axis
                   (setAxis axis
                      (roundValue (parseNumber parsed (Some (distanceValue primitive axis))))
                      (p_position primitive))
                 = roundValue entry).
    { rewrite getAxis_setAxis. unfold parseNumber, distanceValue, entry.
      destruct (isFinite parsed); reflexivity. }
    split; [exact Hv|]. split.
    + rewrite Hv. apply roundValue_rounds.
    + intros other Ho. apply setAxis_others. exact Ho.
  - contradiction.
Qed.

Lemma setDim_getDim (key : DimKey) (d : Dimensions) : setDim key (getDim key d) d = d.
Proof. destruct d, key; reflexivity. Qed.

Lemma getDim_setDim (key : DimKey) (v : jsval) (d : Dimensions) :
  getDim key (setDim key v d) = v.
Proof. destruct key; reflexivity. Qed.

Lemma withDimensions_same (item : Primitive) :
  withDimensions item (p_dimensions item) = item.
Proof. destruct item. reflexivity. Qed.

Lemma parseNumber_fallback (parsed : number) (f : number) :
  isFinite parsed = false -> parseNumber parsed (Some f) = f.
Proof. unfold parseNumber. intros ->. reflexivity. Qed.

Lemma max_floor_keeps (f : number) :
  finite_ge (1 # 10) f -> JsNum.max (Fin (1 # 10)) f = f.
Proof.
  destruct f as [q| | |]; simpl; intros H; try contradiction.
  apply Qle_bool_iff in H. rewrite H. reflexivity.
Qed.

(** X18: in a dimension input of the inspector an entry that does not
    parse to a finite number leaves the store as it is, when the rendered
    primitive is in a list of distinct ids, the field of a box input is
    defined and the field of a clamped input (of a sphere or a cylinder) is
    a finite number not below 1/10. *)
Theorem onDimensionInput_invalid_entry (primitive : Primitive) (key : DimKey)
  (parsed : number) (st : Store) :
  isFinite parsed = false ->
  NoDup (ids (primitives st)) ->
  In primitive (primitives st) ->
  (p_type primitive = box -> key <> kRadius ->
   getDim key (p_dimensions primitive) <> None) ->
  (p_type primitive <> box -> fieldAtLeastFloor (getDim key (p_dimensions primitive))) ->
  onDimensionInput primitive key parsed st = st.
Proof.
  intros Hp Hnd Hin Hdefined Hfloor.
  assert (Hgo : forall v, setDim key v (p_dimensions primitive) = p_dimensions primitive ->
                          handleDimensionsChange primitive key v st = st).
  { intros v Hv. destruct st as [items sel].
    unfold handleDimensionsChange, patchPrimitive, setPrimitives.
    cbn [primitives selectedId] in *. f_equal. apply map_unchanged. intros item Hitem.
    destruct (String.eqb_spec (p_id item) (p_id primitive)) as [E|E]; [|reflexivity].
    cbn [negb applyUpdater].
    rewrite (unique_by_id _ item primitive Hnd Hitem Hin E).
    rewrite Hv. apply withDimensions_same. }
  assert (Hbox : p_type primitive = box -> key <> kRadius ->
                 handleDimensionsChange primitive key
                   (Some (parseNumber parsed (getDim key (p_dimensions primitive)))) st = st).
  { intros Et Hk. apply Hgo. specialize (Hdefined Et Hk).
    destruct (getDim key (p_dimensions primitive)) as [f|] eqn:Ef; [|congruence].
    rewrite (@parseNumber_fallback parsed f Hp), <- Ef. apply setDim_getDim. }
  assert (Hclamped : p_type primitive <> box ->
                     handleDimensionsChange primitive key
                       (Some (JsNum.max (Fin (1 # 10))
                          (parseNumber parsed (getDim key (p_dimensions primitive))))) st
                     = st).
  { intros Et. apply Hgo. specialize (Hfloor Et).
    destruct (getDim key (p_dimensions primitive)) as [f|] eqn:Ef; [|contradiction].
    rewrite (@parseNumber_fallback parsed f Hp), (@max_floor_keeps f Hfloor), <- Ef.
    apply setDim_getDim. }
  unfold onDimensionInput.
  destruct (p_type primitive) eqn:Et, key; try reflexivity;
    first [ apply Hbox; [reflexivity | discriminate] | apply Hclamped; discriminate ].
Qed.

(** The default fallback of [parseNumber]: a box whose width is undefined,
    given an entry that does not parse, gets the width 0. *)
Example undefined_width_becomes_zero :
  let plate :=
    mkPrimitive "prim-1" "Base Plate" box add (mkVec3 (Fin 0) (Fin 0) (Fin (1 # 2)))
      (mkDims None (Some (Fin 1)) (Some (Fin 6)) None) in
  option_map (fun p => width (p_dimensions p))
    (selectedPrimitive
       (onDimensionInput plate kWidth NaN (mkStore [plate] (Some "prim-1"))))
  = Some (Some (Fin 0)).
Proof. reflexivity. Qed.

(** X19: a change of type gives every primitive of the rendered id the new
    type and the default dimensions of that type, which are finite and
    positive whatever the dimensions were, and keeps its id, name,
    operation and position; of two changes in a row only the second
    counts. *)
Theorem onTypeSelect_resets (primitive : Primitive) (t t' : ShapeType) (st : Store) :
  onTypeSelect primitive t (onTypeSelect primitive t' st) = onTypeSelect primitive t st
  /\ (forall item,
         In item (primitives (onTypeSelect primitive t st)) ->
         p_id item = p_id primitive ->
         p_type item = t
         /\ p_dimensions item = preset_dimensions (TYPE_PRESETS t)
         /\ primitiveValid item = true
         /\ exists before,
              In before (primitives st)
              /\ (p_id before, p_name before, p_operation before, p_position before)
                 = (p_id item, p_name item, p_operation item, p_position item)).
Proof.
  split.
  - unfold onTypeSelect, patchPrimitive, setPrimitives. cbn [primitives selectedId].
    f_equal. rewrite map_map. apply map_ext. intros item.
    destruct (p_id item =? p_id primitive)%string eqn:E; cbn [negb applyUpdater p_id].
    + rewrite E. reflexivity.
    + rewrite E. reflexivity.
  - intros item Hin Hid.
    unfold onTypeSelect, patchPrimitive, setPrimitives in Hin. cbn [primitives] in Hin.
    apply in_map_iff in Hin. destruct Hin as (before & E & Hb).
    destruct (String.eqb_spec (p_id before) (p_id primitive)) as [Eb|Eb];
      cbn [negb applyUpdater] in E; subst item; [|contradiction].
    split; [reflexivity|]. split; [reflexivity|].
    split; [destruct t; reflexivity|].
    exists before. split; [exact Hb | reflexivity].
Qed.

(** X20: whatever is typed into a dimension arrow and whatever the
    dimensions were, the field the arrow edits is afterwards, for the
    primitives of the rendered id, a number not below 1/10, never zero,
    negative or [NaN]: for a width, height or depth at least 10 hundredths,
    for a radius the half of at least 20 hundredths, and [Infinity] when the
    rounding of the entry overflows. *)
Theorem onArrowCommit_floor (primitive : Primitive) (key : DimKey) (parsed : number)
  (st : Store) (item : Primitive) :
  dimensionArrow primitive key <> None ->
  In item (primitives (onArrowCommit primitive key parsed st)) ->
  p_id item = p_id primitive ->
  exists v,
    getDim key (p_dimensions item) = Some v
    /\ fieldFromFloor (Some v)
    /\ (key <> kRadius -> hundredthsFrom 10 v)
    /\ (key = kRadius -> exists d, hundredthsFrom 20 d /\ v = JsNum.div d (Fin 2)).
Proof.
  intros Harrow Hin Hid.
  assert (Hgo : forall v,
             In item (primitives (updateDimensions primitive key v st)) ->
             getDim key (p_dimensions item) = Some v).
  { intros v Hv. unfold updateDimensions in Hv.
    rewrite handleTransformPrimitive_dimensions in Hv. cbn [primitives] in Hv.
    apply in_map_iff in Hv. destruct Hv as (before & E & _).
    destruct (String.eqb_spec (p_id before) (p_id primitive)) as [Eb|Eb]; subst item.
    - cbn [withDimensions p_dimensions]. apply getDim_setDim.
    - contradiction. }
  set (value := parseNumber parsed (Some (arrowValue primitive key))) in *.
  assert (Hplain : In item (primitives (updateDimensions primitive key (clampSize value) st)) ->
                   key <> kRadius ->
                   exists v,
                     getDim key (p_dimensions item) = Some v
                     /\ fieldFromFloor (Some v)
                     /\ (key <> kRadius -> hundredthsFrom 10 v)
                     /\ (key = kRadius ->
                         exists d, hundredthsFrom 20 d /\ v = JsNum.div d (Fin 2))).
  { intros Hv Hk. exists (clampSize value). split; [exact (Hgo _ Hv)|].
    pose proof (clampSize_from value) as Hc.
    split; [apply (@hundredthsFrom_floor 10); [lia | exact Hc]|].
    split; [intros _; exact Hc | intros F; contradiction]. }
  assert (Hdiam : In item (primitives (updateDimensions primitive key
                                         (JsNum.div (clampSizeWith value (Fin (2 # 10)))
                                            (Fin 2)) st)) ->
                  key = kRadius ->
                  exists v,
                    getDim key (p_dimensions item) = Some v
                    /\ fieldFromFloor (Some v)
                    /\ (key <> kRadius -> hundredthsFrom 10 v)
                    /\ (key = kRadius ->
                        exists d, hundredthsFrom 20 d /\ v = JsNum.div d (Fin 2))).
  { intros Hv Hk. eexists. split; [exact (Hgo _ Hv)|].
    assert (Hc : hundredthsFrom 20 (clampSizeWith value (Fin (2 # 10))))
      by (apply clampSizeWith_from; [lia | reflexivity]).
    split; [apply half_from; exact Hc|].
    split; [intros F; contradiction|].
    intros _. eexists. split; [exact Hc | reflexivity]. }
  unfold onArrowCommit in Hin. fold value in Hin. unfold dimensionArrow in Harrow.
  destruct (p_type primitive), key; try (exfalso; apply Harrow; reflexivity);
    first [ apply Hplain; [exact Hin | discriminate]
          | apply Hdiam; [exact Hin | reflexivity] ].
Qed.

(** An entry of 10^307 in the width arrow of the box [prim-1]: the rounding
    overflows and the width stored is [Infinity], which is not a finite
    dimension. *)
Example arrow_commit_stores_infinity :
  option_map (fun p => width (p_dimensions p))
    (selectedPrimitive (onArrowCommit basePlate kWidth (Fin (inject_Z (10 ^ 307))) initialStore))
  = Some (Some PosInf)
  /\ storeValid (onArrowCommit basePlate kWidth (Fin (inject_Z (10 ^ 307))) initialStore)
     = false.
Proof. split; vm_compute; reflexivity. Qed.

(** * Further properties of the solid builder *)

Section SolidBuilderMore.

Context {G : BooleanGeometry}.

Lemma buildCombinedMesh_cons (first : Primitive) (rest : list Primitive) :
  buildCombinedMesh (first :: rest)
  = Some (finishMesh (fold_left combine_spec rest (fromMesh (primitiveToMesh first)))).
Proof.
  unfold buildCombinedMesh, finishMesh. cbn [nth_error List.length Nat.eqb].
  rewrite combineLoop_fold by (simpl; lia). reflexivity.
Qed.

(** X21: appending a primitive to a non-empty list combines it into the
    solid of the list: with [acc] the accumulator of the list, the solid of
    the longer list is the union of [acc] and the new mesh when the new
    primitive is additive, and their difference when it is subtractive. *)
Theorem buildCombinedMesh_append (l : list Primitive) (p : Primitive) (acc : CSG) :
  foldPrimitives_spec l = Some acc ->
  buildCombinedMesh l = Some (finishMesh acc)
  /\ buildCombinedMesh (l ++ [p])
     = Some (finishMesh
               (match p_operation p with
                | add => union acc (fromMesh (primitiveToMesh p))
                | subtract => csg_subtract acc (fromMesh (primitiveToMesh p))
                end)).
Proof.
  destruct l as [|first rest]; [discriminate|].
  cbn [foldPrimitives_spec]. intros E. injection E as <-.
  split; [apply buildCombinedMesh_cons|].
  change ((first :: rest) ++ [p]) with (first :: (rest ++ [p])).
  rewrite buildCombinedMesh_cons, fold_left_app. reflexivity.
Qed.

Lemma cons_eq_inv {A : Type} (a b : A) (l1 l2 : list A) :
  a :: l1 = b :: l2 -> a = b /\ l1 = l2.
Proof. intros H. injection H as Ha Hl. split; assumption. Qed.

Lemma combine_spec_shape (acc : CSG) (p q : Primitive) :
  shapeOf p = shapeOf q -> combine_spec acc p = combine_spec acc q.
Proof.
  unfold shapeOf. intros E. injection E as Et Eo Ep Ed.
  unfold combine_spec, primitiveToMesh. rewrite Et, Eo, Ep, Ed. reflexivity.
Qed.

Lemma fold_combine_shape (l1 l2 : list Primitive) (acc : CSG) :
  map shapeOf l1 = map shapeOf l2 ->
  fold_left combine_spec l1 acc = fold_left combine_spec l2 acc.
Proof.
  revert l2 acc. induction l1 as [|a l1 IH]; intros [|b l2] acc E; try discriminate.
  - reflexivity.
  - cbn [map] in E. apply cons_eq_inv in E. destruct E as [Ea El]. cbn [fold_left].
    rewrite (combine_spec_shape acc Ea). apply IH. exact El.
Qed.

(** X22: the solid depends only on the type, operation, position and
    dimensions of the primitives, in order: two lists that agree on these
    build the same mesh, whatever the ids and the names. *)
Theorem buildCombinedMesh_reads_shapes (l1 l2 : list Primitive) :
  map shapeOf l1 = map shapeOf l2 ->
  buildCombinedMesh l1 = buildCombinedMesh l2.
Proof.
  destruct l1 as [|a l1], l2 as [|b l2]; intros E; try discriminate; [reflexivity|].
  cbn [map] in E. apply cons_eq_inv in E. destruct E as [Ea El].
  rewrite !buildCombinedMesh_cons. do 2 f_equal.
  assert (Em : primitiveToMesh a = primitiveToMesh b).
  { unfold shapeOf in Ea. injection Ea as Et _ Ep Ed.
    unfold primitiveToMesh. rewrite Et, Ep, Ed. reflexivity. }
  rewrite Em. apply fold_combine_shape. exact El.
Qed.

(** X23: the solid after [addPrimitive]: on an empty list the new primitive
    alone is the solid, a sphere too although its operation is subtract; on
    a list with accumulator [acc] a new box or cylinder is united with
    [acc] and a new sphere is cut from it. *)
Theorem addPrimitive_solid (suffix : string) (rnd : Q) (type : ShapeType) (st : Store) :
  exists p,
    primitives (addPrimitive suffix rnd type st) = primitives st ++ [p]
    /\ p_type p = type
    /\ (primitives st = [] ->
        buildCombinedMesh (primitives (addPrimitive suffix rnd type st))
        = Some (finishMesh (fromMesh (primitiveToMesh p))))
    /\ (forall acc,
           foldPrimitives_spec (primitives st) = Some acc ->
           buildCombinedMesh (primitives (addPrimitive suffix rnd type st))
           = Some (finishMesh
                     (match type with
                      | sphere => csg_subtract acc (fromMesh (primitiveToMesh p))
                      | box | cylinder => union acc (fromMesh (primitiveToMesh p))
                      end))).
Proof.
  eexists. split; [reflexivity|]. split; [reflexivity|]. split.
  - intros E. unfold addPrimitive, setSelectedId, setPrimitives. cbn [primitives].
    rewrite E. cbn [app]. rewrite buildCombinedMesh_cons. reflexivity.
  - intros acc E. unfold addPrimitive, setSelectedId, setPrimitives. cbn [primitives].
    destruct (primitives st) as [|first rest]; [discriminate|].
    cbn [foldPrimitives_spec] in E. injection E as <-.
    change ((first :: rest) ++ ?x) with (first :: (rest ++ x)).
    rewrite buildCombinedMesh_cons, fold_left_app. cbn [fold_left].
    unfold combine_spec at 1. cbn [p_operation]. destruct type; reflexivity.
Qed.

End SolidBuilderMore.

(** X24: a new primitive is seated on the ground plane: its x and y are
    zero and its z is half its vertical extent (half the height of a box or
    a cylinder, the radius of a sphere), so its lowest point is at z = 0. *)
Theorem addPrimitive_seated (suffix : string) (rnd : Q) (type : ShapeType) (st : Store) :
  exists p,
    primitives (addPrimitive suffix rnd type st) = primitives st ++ [p]
    /\ vx (p_position p) = Fin 0
    /\ vy (p_position p) = Fin 0
    /\ sameNumber (JsNum.mul (vz (p_position p)) (Fin 2)) (verticalExtent p)
    /\ primitiveValid p = true.
Proof.
  eexists. split; [reflexivity|]. split; [reflexivity|]. split; [reflexivity|].
  destruct type; split; vm_compute; reflexivity.
Qed.

(** * Opacity *)

(** X25: for every finite ghost opacity the combined solid gets an opacity
    between 1/4 and 1, equal to the ghost opacity plus 1/4 while that is
    within the range, and it is drawn transparent exactly when the ghost
    opacity plus 1/4 is below 99/100; a selected proxy gets the ghost
    opacity plus 1/10, at most 1, an unselected proxy is an invisible
    wireframe; and the slider keeps the ghost opacity finite. *)
Theorem opacity_bounds (q : Q) :
  (exists o,
      solidOpacity (Fin q) = Fin o
      /\ 1 # 4 <= o <= 1
      /\ (0 <= q <= 3 # 4 -> o == q + (1 # 4))
      /\ (solidTransparent (Fin q) = true <-> q + (1 # 4) < 99 # 100))
  /\ (forall primitive,
         (exists o, ghost_opacity (ghostMaterial primitive true (Fin q)) = Fin o /\ o <= 1
                    /\ (q <= 9 # 10 -> o == q + (1 # 10)))
         /\ ghost_opacity (ghostMaterial primitive false (Fin q)) = Fin 0
         /\ ghost_wireframe (ghostMaterial primitive false (Fin q)) = true
         /\ ghost_wireframe (ghostMaterial primitive true (Fin q)) = false)
  /\ (forall parsed, isFinite (onGhostOpacityInput parsed (Fin q)) = true).
Proof.
  split; [|split].
  - unfold solidTransparent, solidOpacity. cbn [JsNum.add JsNum.max].
    destruct (Qle_bool (q + (1 # 4)) (1 # 4)) eqn:E1.
    + apply Qle_bool_iff in E1. cbn [num_min].
      change (Qle_bool 1 (1 # 4)) with false. cbv iota.
      exists (1 # 4). split; [reflexivity|]. split; [lra|]. split; [intros; lra|].
      cbn [num_ltb]. change (Qle_bool (99 # 100) (1 # 4)) with false.
      split; intros _; [lra | reflexivity].
    + apply Qle_bool_false in E1. cbn [num_min].
      destruct (Qle_bool 1 (q + (1 # 4))) eqn:E2.
      * apply Qle_bool_iff in E2. exists 1. split; [reflexivity|]. split; [lra|].
        split; [intros; lra|]. cbn [num_ltb].
        change (Qle_bool (99 # 100) 1) with true.
        split; intros H; [discriminate | lra].
      * apply Qle_bool_false in E2. exists (q + (1 # 4)).
        split; [reflexivity|]. split; [lra|]. split; [intros; reflexivity|].
        cbn [num_ltb]. rewrite negb_true_iff. apply Qle_bool_false.
  - intros primitive. unfold ghostMaterial. cbn [ghost_opacity ghost_wireframe negb].
    split; [|repeat split].
    cbn [JsNum.add num_min].
    destruct (Qle_bool (q + (1 # 10)) 1) eqn:E.
    + apply Qle_bool_iff in E. exists (q + (1 # 10)).
      split; [reflexivity|]. split; [exact E | intros; reflexivity].
    + apply Qle_bool_false in E. exists 1.
      split; [reflexivity|]. split; [lra | intros; lra].
  - intros parsed. unfold onGhostOpacityInput, parseNumber.
    destruct (isFinite parsed) eqn:E; [exact E | reflexivity].
Qed.

(** * The dimension arrows *)

(** X26: every dimension arrow runs along one engine axis: for a box the
    width arrow along x, the depth arrow along engine z and the height arrow
    along engine y; for a sphere the diameter arrow along engine y; for a
    cylinder the height arrow along engine y and the diameter arrow along x;
    the two ends of an arrow have the same two other coordinates.  The value
    an arrow shows is the value its commit falls back to, and a shape has no
    arrow for the keys of the other shapes. *)
Theorem dimensionArrow_axis (p : Primitive) (key : DimKey) :
  match arrowAxis (p_type p) key with
  | Some axis =>
      exists a,
        dimensionArrow p key = Some a
        /\ (forall other, other <> axis ->
              getAxis other (arrow_start a) = getAxis other (arrow_end a))
        /\ arrow_value a = arrowValue p key
  | None => dimensionArrow p key = None
  end.
Proof.
  unfold dimensionArrow, arrowAxis.
  destruct (p_type p), key; try reflexivity;
    (eexists; split; [reflexivity|]; split; [|reflexivity];
     intros other Ho; destruct other; try reflexivity; congruence).
Qed.

(** * Invariants kept by the operations that do not edit dimensions *)

Lemma storeValid_permutation (l l' : list Primitive) (sel sel' : option string) :
  Permutation l l' -> storeValid (mkStore l sel) = true -> storeValid (mkStore l' sel') = true.
Proof.
  unfold storeValid. cbn [primitives]. intros HP H.
  rewrite forallb_forall in *. intros x Hx. apply H.
  apply (Permutation_in x (Permutation_sym HP)). exact Hx.
Qed.

Lemma storeValid_patch_dimensions (id : string) (f : Primitive -> Primitive) (st : Store) :
  (forall p, p_type (f p) = p_type p /\ p_dimensions (f p) = p_dimensions p) ->
  storeValid st = true -> storeValid (patchPrimitive id (UpdaterFn f) st) = true.
Proof.
  intros Hf Hst. apply storeValid_patch; [exact Hst|].
  intros item Hitem _. unfold primitiveValid.
  destruct (Hf item) as [-> ->]. exact (storeValid_In _ _ Hst Hitem).
Qed.

(** X27: the operations that do not edit dimensions keep every dimension
    finite and positive: removing, reordering, the arrow keys, the position
    inputs, the distance labels, renaming and changing the operation. *)
Theorem dimension_invariant_kept (st : Store) :
  storeValid st = true ->
  (forall id, storeValid (removePrimitive id st) = true)
  /\ (forall id direction, storeValid (reorderPrimitive id direction st) = true)
  /\ (forall event, storeValid (handleKeyDown event st) = true)
  /\ (forall primitive axis parsed,
         storeValid (onPositionInput primitive axis parsed st) = true)
  /\ (forall primitive axis parsed,
         storeValid (onDistanceCommit primitive axis parsed st) = true)
  /\ (forall primitive value, storeValid (onNameInput primitive value st) = true)
  /\ (forall primitive op, storeValid (onOperationSelect primitive op st) = true).
Proof.
  intros Hst. split; [|split; [|split; [|split; [|split; [|split]]]]].
  - intros id. unfold storeValid, removePrimitive. cbn [primitives].
    unfold storeValid in Hst. rewrite forallb_forall in *.
    intros x Hx. apply filter_In in Hx. apply Hst. tauto.
  - intros id direction.
    destruct st as [items sel].
    apply (@storeValid_permutation items _ sel _
             (reorderPrimitive_permutation id direction (mkStore items sel))).
    exact Hst.
  - intros event. unfold handleKeyDown.
    destruct (selectedId st) as [sid|]; [|exact Hst].
    destruct (sid =? "")%string; [exact Hst|].
    destruct (ev_focusInField event); [exact Hst|].
    destruct (negb (isArrowKey (ev_key event))); [exact Hst|].
    apply storeValid_patch_dimensions; [|exact Hst]. intros p. split; reflexivity.
  - intros primitive axis parsed. unfold onPositionInput.
    apply storeValid_patch_dimensions; [|exact Hst]. intros p. split; reflexivity.
  - intros primitive axis parsed. unfold onDistanceCommit, updatePosition.
    apply applyCalls_translate_valid. exact Hst.
  - intros primitive value. unfold onNameInput.
    apply storeValid_patch_dimensions; [|exact Hst]. intros p. split; reflexivity.
  - intros primitive op. unfold onOperationSelect.
    apply storeValid_patch_dimensions; [|exact Hst]. intros p. split; reflexivity.
Qed.

(** X28: a selection that names a primitive of the list, or none, stays so
    under a reordering, under a patch whose updater keeps ids and under the
    arrow keys; [addPrimitive] always leaves the new primitive selected. *)
Theorem selection_stays_listed (st : Store) :
  selectionListed st ->
  (forall id direction, selectionListed (reorderPrimitive id direction st))
  /\ (forall id f, (forall p, p_id (f p) = p_id p) ->
                   selectionListed (patchPrimitive id (UpdaterFn f) st))
  /\ (forall event, selectionListed (handleKeyDown event st))
  /\ (forall suffix rnd type,
         selectedId (addPrimitive suffix rnd type st) = Some (randomId suffix)
         /\ selectionListed (addPrimitive suffix rnd type st)).
Proof.
  intros Hsel. split; [|split; [|split]].
  - intros id direction. unfold selectionListed in *.
    change (selectedId (reorderPrimitive id direction st)) with (selectedId st).
    destruct (selectedId st) as [sid|]; [|exact I].
    apply (Permutation_in sid (l := ids (primitives st))); [|exact Hsel].
    unfold ids. apply Permutation_map. apply reorderPrimitive_permutation.
  - intros id f Hf. unfold selectionListed in *.
    rewrite patchPrimitive_ids by exact Hf.
    change (selectedId (patchPrimitive id (UpdaterFn f) st)) with (selectedId st).
    exact Hsel.
  - intros event. unfold handleKeyDown.
    destruct (selectedId st) as [sid|] eqn:E; [|exact Hsel].
    destruct (sid =? "")%string; [exact Hsel|].
    destruct (ev_focusInField event); [exact Hsel|].
    destruct (negb (isArrowKey (ev_key event))); [exact Hsel|].
    unfold selectionListed in *.
    rewrite patchPrimitive_ids by (intros p; reflexivity).
    change (selectedId (patchPrimitive sid ?u st)) with (selectedId st).
    exact Hsel.
  - intros suffix rnd type. split; [reflexivity|].
    unfold selectionListed, addPrimitive, setSelectedId, setPrimitives.
    cbn [selectedId primitives p_id]. rewrite ids_app. apply in_or_app.
    right. left. reflexivity.
Qed.

(** * Instances of the further properties on the sample states *)

Lemma reorderPrimitive_round_trip_witness :
  reorderPrimitive "X" (-1) (reorderPrimitive "X" 1 storeXYZ) = storeXYZ
  /\ reorderPrimitive "X" 1
       (reorderPrimitive "X" (-1)
          (mkStore [unitBox "Y"; unitBox "X"; unitBox "Z"] (Some "Y")))
     = mkStore [unitBox "Y"; unitBox "X"; unitBox "Z"] (Some "Y").
Proof.
  apply (@reorderPrimitive_round_trip [] [unitBox "Z"] (unitBox "X") (unitBox "Y") (Some "Y")).
  - intros F. exact F.
  - discriminate.
Defined.

Lemma storeXYZ_distinct : NoDup (ids (primitives storeXYZ)).
Proof. simpl. repeat constructor; simpl; intuition discriminate. Qed.

Lemma initialStore_distinct : NoDup (ids (primitives initialStore)).
Proof. simpl. repeat constructor; simpl; intuition discriminate. Qed.

Lemma mutators_keep_ids_distinct_witness :
  NoDup (ids (primitives (removePrimitive "Y" storeXYZ)))
  /\ NoDup (ids (primitives (reorderPrimitive "Y" 1 storeXYZ))).
Proof.
  destruct (@mutators_keep_ids_distinct storeXYZ storeXYZ_distinct) as (Hr & Ho & _).
  split; [apply Hr | apply Ho].
Defined.

Lemma add_then_remove_witness :
  removePrimitive (randomId "k3x9q2a") (addPrimitive "k3x9q2a" (1 # 2) sphere storeXYZ)
  = mkStore (primitives storeXYZ) (lastId (primitives storeXYZ)).
Proof.
  apply (@add_then_remove "k3x9q2a" (1 # 2) sphere storeXYZ).
  simpl. intuition discriminate.
Defined.

Lemma patchPrimitive_composes_witness :
  patchPrimitive "Y" (UpdaterFn (fun p => withDimensions p (sphereDims (Fin 2))))
    (patchPrimitive "Y" (UpdaterFn (fun p => withPosition p (mkVec3 (Fin 1) (Fin 2) (Fin 3))))
       storeXYZ)
  = patchPrimitive "Y"
      (UpdaterFn (fun p => withDimensions
                             (withPosition p (mkVec3 (Fin 1) (Fin 2) (Fin 3)))
                             (sphereDims (Fin 2))))
      storeXYZ.
Proof.
  apply (proj1 (@patchPrimitive_composes
                  (fun p => withPosition p (mkVec3 (Fin 1) (Fin 2) (Fin 3)))
                  (fun p => withDimensions p (sphereDims (Fin 2)))
                  storeXYZ (fun p => eq_refl) (fun p => eq_refl))).
Defined.

Lemma computeScaledDimensions_unit_scale_witness :
  exists n,
    computeScaledDimensions box (p_dimensions basePlate)
      (Some (mkVec3 (Fin 1) (Fin 1) (Fin 1))) = Some n
    /\ sameDimensions n (p_dimensions basePlate).
Proof.
  apply (@computeScaledDimensions_unit_scale box (p_dimensions basePlate)).
  cbn [settledDimensions basePlate p_dimensions boxDims width height depth radius].
  repeat split.
  - exists 600%Z, (Fin 6). repeat split; [lia | apply Z.leb_le; vm_compute; reflexivity].
  - exists 100%Z, (Fin 1). repeat split; [lia | apply Z.leb_le; vm_compute; reflexivity].
  - exists 600%Z, (Fin 6). repeat split; [lia | apply Z.leb_le; vm_compute; reflexivity].
Defined.

Lemma computeScaledDimensions_monotone_witness :
  exists n m,
    computeScaledDimensions box (boxDims (Fin 2) (Fin 2) (Fin 2))
      (Some (mkVec3 (Fin 1) (Fin (-1 # 2)) (Fin 0))) = Some n
    /\ computeScaledDimensions box (boxDims (Fin 2) (Fin 2) (Fin 2))
         (Some (mkVec3 (Fin (-2 # 1)) (Fin 1) (Fin 3))) = Some m
    /\ dimensionsLe n m.
Proof.
  apply (@computeScaledDimensions_monotone box (boxDims (Fin 2) (Fin 2) (Fin 2))
           (mkVec3 (Fin 1) (Fin (-1 # 2)) (Fin 0))
           (mkVec3 (Fin (-2 # 1)) (Fin 1) (Fin 3))).
  - unfold nonNegativeDimensions, nonNegativeField, boxDims, scaleBound.
    cbn [width height depth radius].
    repeat split; unfold Qle; apply Z.leb_le; vm_compute; reflexivity.
  - unfold scaleLe, scaleBound. cbn [vx vy vz].
    repeat split; unfold Qle; apply Z.leb_le; vm_compute; reflexivity.
Defined.

Lemma resize_session_commits_witness :
  exists n,
    computeScaledDimensions box (p_dimensions basePlate)
      (Some (proxy_scale draggedProxy)) = Some n
    /\ primitives
         (store (run (fullSession draggedProxy)
                   (mkWorkspace initialStore resize (fun _ => None)
                      (fun _ => Some draggedProxy))))
       = map (fun item =>
                if (p_id item =? "prim-1")%string
                then withDimensions item n else item)
             DEFAULT_PRIMITIVES.
Proof.
  destruct (@resize_session_commits
              (mkWorkspace initialStore resize (fun _ => None) (fun _ => Some draggedProxy))
              basePlate draggedProxy draggedProxy eq_refl eq_refl eq_refl)
    as (n & Hn & Hl & _).
  exists n. split; [exact Hn | exact Hl].
Defined.

Lemma initialStore_selected_hundredths :
  forall item,
    In item (primitives initialStore) -> selectedId initialStore = Some (p_id item) ->
    hundredthPosition (p_position item).
Proof.
  intros item Hin Hs. simpl in Hin.
  destruct Hin as [<-|[<-|[<-|[]]]]; try discriminate Hs.
  repeat split; [exists 0%Z | exists 0%Z | exists 50%Z];
    (split; [apply Z.leb_le; vm_compute; reflexivity | unfold Qeq; reflexivity]).
Qed.

Lemma opposite_keys_cancel_witness :
  Forall2 samePlace
    (primitives
       (handleKeyDown (mkKeyEvent ArrowDown true false)
          (handleKeyDown (mkKeyEvent ArrowUp true false) initialStore)))
    (primitives initialStore).
Proof.
  exact (proj1 (@opposite_keys_cancel (mkKeyEvent ArrowUp true false) initialStore
                  initialStore_selected_hundredths)).
Defined.

Lemma onDistanceCommit_rounds_witness :
  getAxis az
    (p_position
       (hd basePlate
          (primitives (onDistanceCommit basePlate az (Fin (1234 # 1000)) initialStore))))
  = roundValue (Fin (1234 # 1000)).
Proof.
  apply (proj1 (@onDistanceCommit_rounds basePlate az (Fin (1234 # 1000)) initialStore
                  (hd basePlate
                     (primitives
                        (onDistanceCommit basePlate az (Fin (1234 # 1000)) initialStore)))
                  (or_introl eq_refl) eq_refl)).
Defined.

Lemma onDimensionInput_invalid_entry_witness :
  onDimensionInput basePlate kWidth NaN initialStore = initialStore.
Proof.
  apply (@onDimensionInput_invalid_entry basePlate kWidth NaN initialStore eq_refl
           initialStore_distinct (or_introl eq_refl)).
  - intros _ _. discriminate.
  - intros H. exfalso. apply H. reflexivity.
Defined.

Lemma onArrowCommit_floor_witness :
  exists v,
    getDim kWidth
      (p_dimensions
         (hd basePlate
            (primitives (onArrowCommit basePlate kWidth (Fin (-3 # 1)) initialStore))))
    = Some v
    /\ fieldFromFloor (Some v)
    /\ (kWidth <> kRadius -> hundredthsFrom 10 v)
    /\ (kWidth = kRadius -> exists d, hundredthsFrom 20 d /\ v = JsNum.div d (Fin 2)).
Proof.
  apply (@onArrowCommit_floor basePlate kWidth (Fin (-3 # 1)) initialStore
           (hd basePlate
              (primitives (onArrowCommit basePlate kWidth (Fin (-3 # 1)) initialStore)))).
  - discriminate.
  - left. reflexivity.
  - reflexivity.
Defined.

Lemma buildCombinedMesh_append_witness :
  buildCombinedMesh [unitBox "X"; unitBox "Y"]
  = Some (finishMesh (TUnion (TLeaf (primitiveToMesh (unitBox "X")))
                             (TLeaf (primitiveToMesh (unitBox "Y"))))).
Proof.
  exact (proj2 (@buildCombinedMesh_append SymbolicGeometry [unitBox "X"] (unitBox "Y")
                  (TLeaf (primitiveToMesh (unitBox "X"))) eq_refl)).
Defined.

Lemma buildCombinedMesh_reads_shapes_witness :
  buildCombinedMesh (G := SymbolicGeometry) [unitBox "X"; unitBox "Y"]
  = buildCombinedMesh [unitBox "Y"; unitBox "Z"].
Proof.
  exact (@buildCombinedMesh_reads_shapes SymbolicGeometry
           [unitBox "X"; unitBox "Y"] [unitBox "Y"; unitBox "Z"] eq_refl).
Defined.

Lemma dimension_invariant_kept_witness :
  storeValid (removePrimitive "prim-2" initialStore) = true
  /\ storeValid (handleKeyDown (mkKeyEvent ArrowLeft false false) initialStore) = true.
Proof.
  destruct (@dimension_invariant_kept initialStore eq_refl) as (Hr & _ & Hk & _).
  split; [apply Hr | apply Hk].
Defined.

Lemma selection_stays_listed_witness :
  selectionListed (reorderPrimitive "prim-1" 1 initialStore)
  /\ selectionListed (handleKeyDown (mkKeyEvent ArrowUp false false) initialStore).
Proof.
  destruct (@selection_stays_listed initialStore (or_introl eq_refl)) as (Ho & _ & Hk & _).
  split; [apply Ho | apply Hk].
Defined.
